(** * Baikal OBJ scene loader: [SceneIo::LoadTexture], [SceneIoObj::TranslateMaterial]
    and [SceneIoObj::LoadScene] of [Baikal/SceneGraph/IO/scene_io.cpp].

    The loader is embedded as executable functions over an explicit loader
    state: the two name-keyed caches are finite maps from names to object
    references, the objects behind [Texture::Ptr], [Material::Ptr] and
    [Mesh::Ptr] live in per-type stores where a reference is the allocation
    index, so that reference equality of two shared pointers is equality of
    two numbers. *)

From Stdlib Require Import ZArith NArith Lia Floats.SpecFloat.
From stdpp Require Import gmap strings list sorting.

Open Scope string_scope.
Open Scope list_scope.
Open Scope nat_scope.

(** ** Single-precision numbers *)

Module Float.

(** [float] is IEEE binary32: 24 bits of mantissa, infinities at 2^128. *)
Definition float : Type := spec_float.
Definition prec : Z := 24.
Definition emax : Z := 128.

Definition mul (a b : float) : float := SFmul prec emax a b.
Definition add (a b : float) : float := SFadd prec emax a b.
Definition ltb (a b : spec_float) : bool := SFltb a b.

(** The literal [n/d] rounded to nearest in binary32 (a literal such as
    [2.2f]) and in binary64 (a literal such as [0.01]). *)
Definition lit (n d : Z) : float :=
  SFdiv prec emax (binary_normalize prec emax n 0 false)
                  (binary_normalize prec emax d 0 false).
Definition lit_double (n d : Z) : spec_float :=
  SFdiv 53 1024 (binary_normalize 53 1024 n 0 false)
                (binary_normalize 53 1024 d 0 false).

Definition zero : float := S754_zero false.

(** The promotion of a float to double: the same value, with the
    mantissa and exponent of binary64. *)
Definition to_double (a : float) : spec_float :=
  match a with
  | S754_finite s m e => binary_round 53 1024 s m e
  | _ => a
  end.

End Float.

Abbreviation float := Float.float.

(** [RadeonRays::float3] and [RadeonRays::float2]. *)
Record float3 : Type := mk_float3 { x3 : float; y3 : float; z3 : float }.
Record float2 : Type := mk_float2 { x2 : float; y2 : float }.

(** Modelled from the spec: the squared norm of a colour
    ([RadeonRays::float3::sqnorm], a header outside the sources), the sum
    of the squares of the three components in single precision. *)
Definition sqnorm (v : float3) : float :=
  Float.add (Float.add (Float.mul (x3 v) (x3 v)) (Float.mul (y3 v) (y3 v)))
            (Float.mul (z3 v) (z3 v)).

(** [v.sqnorm() > 0]: the integer 0 is converted to a float. *)
Definition sqnorm_pos (v : float3) : bool := Float.ltb Float.zero (sqnorm v).

(** [v.sqnorm() < 0.01]: the float is promoted and compared with the
    double 0.01. *)
Definition sqnorm_small (v : float3) : bool :=
  Float.ltb (Float.to_double (sqnorm v)) (Float.lit_double 1 100).

(** ** Parser records ([tinyobj]) *)

(** The fields of [tinyobj::material_t] read by the loader; a [float[3]]
    colour is a triple. *)
Record material_t : Type := {
  name : string;
  diffuse : float * float * float;
  specular : float * float * float;
  transmittance : float * float * float;
  emission : float * float * float;
  diffuse_texname : string;
  specular_texname : string;
  bump_texname : string
}.

Definition to_float3 (c : float * float * float) : float3 :=
  let '(a, b, c) := c in mk_float3 a b c.

(** [tinyobj::mesh_t]: flat attribute arrays, [unsigned int] indices, one
    vertex count and one [int] material id per face. *)
Module tinyobj.
Record mesh_t : Type := {
  positions : list float;
  normals : list float;
  texcoords : list float;
  indices : list N;
  num_vertices : list N;
  material_ids : list Z
}.

Record shape_t : Type := { mesh : mesh_t }.
End tinyobj.

(** ** Scene graph objects *)

(** References: the index of the object in the store of its type. *)
Definition ref : Type := nat.

(** A [Texture::Ptr] may be [nullptr]. *)
Definition TexturePtr : Type := option ref.
Definition nullptr : TexturePtr := None.

(** Modelled from the spec: a decoded texture ([texture.h] is outside the
    sources): its name and its texels. *)
Record Texture : Type := { texture_name : string; texture_data : list Z }.

Definition Texture_SetName (n : string) (t : Texture) : Texture :=
  {| texture_name := n; texture_data := texture_data t |}.

(** The input graph nodes built by the translator. *)
Inductive InputMap : Type :=
| InputMap_ConstantFloat (f : float)
| InputMap_ConstantFloat3 (v : float3)
| InputMap_Sampler (t : TexturePtr)
| InputMap_SamplerBumpMap (t : TexturePtr)
| InputMap_Pow (a b : InputMap)
| InputMap_Remap (src dst data : InputMap).

(** Modelled from the spec: the layer bits of [UberV2Material::Layers]
    ([uberv2material.h] is outside the sources), one distinct bit per
    layer. *)
Module Layers.
Definition kEmissionLayer : Z := 0x1.
Definition kTransparencyLayer : Z := 0x2.
Definition kCoatingLayer : Z := 0x4.
Definition kReflectionLayer : Z := 0x8.
Definition kDiffuseLayer : Z := 0x10.
Definition kRefractionLayer : Z := 0x20.
Definition kSSSLayer : Z := 0x40.
Definition kShadingNormalLayer : Z := 0x80.
End Layers.

(** Modelled from the spec: a material ([material.h] and
    [uberv2material.h] are outside the sources) is a name, a mask of
    enabled layers and named input slots. The slots are kept as the
    history of [SetInputValue] calls, latest first, so that a slot written
    twice shows both writes; a slot absent from the history was never
    written by the translator. *)
Record Material : Type := {
  material_name : string;
  layers : Z;
  inputs : list (string * InputMap)
}.

Definition UberV2Material_Create : Material :=
  {| material_name := ""; layers := 0; inputs := [] |}.

Definition SetInputValue (slot : string) (v : InputMap) (m : Material) : Material :=
  {| material_name := material_name m; layers := layers m;
     inputs := (slot, v) :: inputs m |}.

Definition SetLayers (l : Z) (m : Material) : Material :=
  {| material_name := material_name m; layers := l; inputs := inputs m |}.

Definition SetName (n : string) (m : Material) : Material :=
  {| material_name := n; layers := layers m; inputs := inputs m |}.

(** The current value of a slot: its latest write. *)
Fixpoint assoc (slot : string) (l : list (string * InputMap)) : option InputMap :=
  match l with
  | [] => None
  | (k, v) :: l' => if String.eqb k slot then Some v else assoc slot l'
  end.

Definition GetInputValue (slot : string) (m : Material) : option InputMap :=
  assoc slot (inputs m).

Definition has_layer (m : Material) (bit : Z) : bool :=
  Z.eqb (Z.land (layers m) bit) bit.

(** Modelled from the spec: [Material::HasEmission], the emission layer is
    enabled. *)
Definition HasEmission (m : Material) : bool := has_layer m Layers.kEmissionLayer.

(** ** The image decoder and the loader state *)

Inductive exception : Type := runtime_error (what : string).

(** [ImageIo]: decoding a path gives a texture or throws. *)
Record ImageIo : Type := { LoadImage : string -> exception + Texture }.

(** Modelled from the spec: a mesh ([shape.h] is outside the sources):
    its own vertex, normal and UV buffers, its index buffer and the
    material assigned to it, if any. *)
Record Mesh : Type := {
  mesh_vertices : list float3;
  mesh_normals : list float3;
  mesh_uvs : list float2;
  mesh_indices : list N;
  mesh_material : option ref
}.

(** The loader object and the objects it has created so far. [log] is the
    output of [LogInfo]. *)
Record Loader : Type := {
  m_texture_cache : gmap string ref;
  m_material_cache : gmap string ref;
  texture_store : list Texture;
  material_store : list Material;
  mesh_store : list Mesh;
  log : list string
}.

Definition empty_loader : Loader :=
  {| m_texture_cache := ∅; m_material_cache := ∅;
     texture_store := []; material_store := []; mesh_store := []; log := [] |}.

Definition LogInfo (msg : string) (st : Loader) : Loader :=
  {| m_texture_cache := m_texture_cache st;
     m_material_cache := m_material_cache st;
     texture_store := texture_store st;
     material_store := material_store st;
     mesh_store := mesh_store st;
     log := log st ++ [msg] |}.

(** A new texture object; the reference is its index in the store. *)
Definition new_texture (t : Texture) (st : Loader) : ref * Loader :=
  (length (texture_store st),
   {| m_texture_cache := m_texture_cache st;
      m_material_cache := m_material_cache st;
      texture_store := texture_store st ++ [t];
      material_store := material_store st;
      mesh_store := mesh_store st;
      log := log st |}).

Definition cache_texture (n : string) (r : ref) (st : Loader) : Loader :=
  {| m_texture_cache := <[n := r]> (m_texture_cache st);
     m_material_cache := m_material_cache st;
     texture_store := texture_store st;
     material_store := material_store st;
     mesh_store := mesh_store st;
     log := log st |}.

Definition new_material (m : Material) (st : Loader) : ref * Loader :=
  (length (material_store st),
   {| m_texture_cache := m_texture_cache st;
      m_material_cache := m_material_cache st;
      texture_store := texture_store st;
      material_store := material_store st ++ [m];
      mesh_store := mesh_store st;
      log := log st |}).

(** [m_material_cache.emplace]: an existing entry is kept. *)
Definition cache_material (n : string) (r : ref) (st : Loader) : Loader :=
  {| m_texture_cache := m_texture_cache st;
     m_material_cache :=
       match m_material_cache st !! n with
       | Some _ => m_material_cache st
       | None => <[n := r]> (m_material_cache st)
       end;
     texture_store := texture_store st;
     material_store := material_store st;
     mesh_store := mesh_store st;
     log := log st |}.

(** The line feed that ends a log message. *)
Definition LF : string := String (Ascii.ascii_of_nat 10) EmptyString.

(** ** [SceneIo::LoadTexture] *)

Definition LoadTexture (io : ImageIo) (basepath name : string) (st : Loader)
  : TexturePtr * Loader :=
  match m_texture_cache st !! name with
  | Some r => (Some r, st)
  | None =>
      let st := LogInfo ("Loading " +:+ name +:+ LF) st in
      match LoadImage io (basepath +:+ name) with
      | inr texture =>
          let '(r, st) := new_texture (Texture_SetName name texture) st in
          (Some r, cache_texture name r st)
      | inl _ =>
          (nullptr, LogInfo ("Missing texture: " +:+ name +:+ LF) st)
      end
  end.

(** ** [SceneIoObj::TranslateMaterial] *)

(** [std::string::empty]. *)
Definition empty (s : string) : bool :=
  match s with EmptyString => true | String _ _ => false end.

(** [InputMap_Pow::Create(InputMap_Sampler::Create(texture),
    InputMap_ConstantFloat::Create(2.2f))]. *)
Definition pow_sampler (texture : TexturePtr) : InputMap :=
  InputMap_Pow (InputMap_Sampler texture) (InputMap_ConstantFloat (Float.lit 22 10)).

(** The bump block shared by the four non-emissive branches. *)
Definition set_bump (io : ImageIo) (mat : material_t) (basepath : string)
    (ml : Material * Z) (st : Loader) : Material * Z * Loader :=
  let '(material, layers) := ml in
  if negb (empty (bump_texname mat)) then
    let '(texture, st) := LoadTexture io basepath (bump_texname mat) st in
    let bump_sampler := InputMap_SamplerBumpMap texture in
    let bump_remap :=
      InputMap_Remap
        (InputMap_ConstantFloat3
           (mk_float3 (Float.lit 0 1) (Float.lit 1 1) (Float.lit 0 1)))
        (InputMap_ConstantFloat3
           (mk_float3 (Float.lit (-1) 1) (Float.lit 1 1) (Float.lit 0 1)))
        bump_sampler in
    (SetInputValue "uberv2.shading_normal" bump_remap material,
     Z.lor layers Layers.kShadingNormalLayer, st)
  else (material, layers, st).

(** The body of the cache-miss path up to [SetName]: the classification
    of the record, first matching branch wins. *)
Definition classify (io : ImageIo) (mat : material_t) (basepath : string)
    (st : Loader) : Material * Loader :=
  let emission := to_float3 (emission mat) in
  if sqnorm_pos emission then
    let material := UberV2Material_Create in
    let '(material, st) :=
      if negb (empty (diffuse_texname mat)) then
        let '(texture, st) := LoadTexture io basepath (diffuse_texname mat) st in
        (SetInputValue "uberv2.emission.color" (pow_sampler texture) material, st)
      else
        (SetInputValue "uberv2.emission.color" (InputMap_ConstantFloat3 emission)
           material, st) in
    (SetLayers Layers.kEmissionLayer material, st)
  else
    let s := to_float3 (specular mat) in
    let r := to_float3 (transmittance mat) in
    let d := to_float3 (diffuse mat) in
    let default_ior := InputMap_ConstantFloat (Float.lit 3 1) in
    let default_roughness := InputMap_ConstantFloat (Float.lit 1 100) in
    let default_one := InputMap_ConstantFloat (Float.lit 1 1) in
    if sqnorm_pos r && sqnorm_pos s then
      let layers :=
        Z.lor (Z.lor Layers.kDiffuseLayer Layers.kReflectionLayer)
              Layers.kRefractionLayer in
      let material := UberV2Material_Create in
      let material := SetInputValue "uberv2.reflection.ior" default_ior material in
      let material := SetInputValue "uberv2.refraction.ior" default_ior material in
      let material :=
        SetInputValue "uberv2.reflection.roughness" default_roughness material in
      let material :=
        SetInputValue "uberv2.refraction.roughness" default_roughness material in
      let material := SetInputValue "uberv2.reflection.metalness" default_one material in
      let '(material, st) :=
        if negb (empty (diffuse_texname mat)) then
          let '(texture, st) := LoadTexture io basepath (diffuse_texname mat) st in
          (SetInputValue "uberv2.diffuse.color" (pow_sampler texture) material, st)
        else
          (SetInputValue "uberv2.diffuse.color" (InputMap_ConstantFloat3 d) material,
           st) in
      let '(material, st) :=
        if negb (empty (specular_texname mat)) then
          let '(texture, st) := LoadTexture io basepath (specular_texname mat) st in
          (SetInputValue "uberv2.reflecton.color" (pow_sampler texture) material, st)
        else
          (SetInputValue "uberv2.reflection.color" (InputMap_ConstantFloat3 s)
             material, st) in
      let '(material, layers, st) := set_bump io mat basepath (material, layers) st in
      let material :=
        SetInputValue "uberv2.refraction.color" (InputMap_ConstantFloat3 r) material in
      (SetLayers layers material, st)
    else if sqnorm_small d && sqnorm_pos s then
      let material := UberV2Material_Create in
      let layers := Layers.kReflectionLayer in
      let material := SetInputValue "uberv2.reflection.ior" default_ior material in
      let material :=
        SetInputValue "uberv2.reflection.roughness" default_roughness material in
      let material := SetInputValue "uberv2.reflection.metalness" default_one material in
      let '(material, st) :=
        if negb (empty (specular_texname mat)) then
          let '(texture, st) := LoadTexture io basepath (specular_texname mat) st in
          (SetInputValue "uberv2.reflecton.color" (pow_sampler texture) material, st)
        else
          (SetInputValue "uberv2.reflection.color" (InputMap_ConstantFloat3 s)
             material, st) in
      let '(material, layers, st) := set_bump io mat basepath (material, layers) st in
      (SetLayers layers material, st)
    else if sqnorm_pos s || negb (empty (specular_texname mat)) then
      let material := UberV2Material_Create in
      let layers := Z.lor Layers.kDiffuseLayer Layers.kReflectionLayer in
      let material := SetInputValue "uberv2.reflection.ior" default_ior material in
      let material :=
        SetInputValue "uberv2.reflection.roughness" default_roughness material in
      let material := SetInputValue "uberv2.reflection.metalness" default_one material in
      let '(material, st) :=
        if negb (empty (diffuse_texname mat)) then
          let '(texture, st) := LoadTexture io basepath (diffuse_texname mat) st in
          (SetInputValue "uberv2.diffuse.color" (pow_sampler texture) material, st)
        else (material, st) in
      let material :=
        SetInputValue "uberv2.diffuse.color" (InputMap_ConstantFloat3 d) material in
      let '(material, st) :=
        if negb (empty (specular_texname mat)) then
          let '(texture, st) := LoadTexture io basepath (specular_texname mat) st in
          (SetInputValue "uberv2.reflection.color" (pow_sampler texture) material, st)
        else (material, st) in
      let material :=
        SetInputValue "uberv2.reflection.color" (InputMap_ConstantFloat3 s) material in
      let '(material, layers, st) := set_bump io mat basepath (material, layers) st in
      (SetLayers layers material, st)
    else
      let material := UberV2Material_Create in
      let layers := Layers.kDiffuseLayer in
      let '(material, st) :=
        if negb (empty (diffuse_texname mat)) then
          let '(texture, st) := LoadTexture io basepath (diffuse_texname mat) st in
          (SetInputValue "uberv2.diffuse.color" (pow_sampler texture) material, st)
        else
          (SetInputValue "uberv2.diffuse.color" (InputMap_ConstantFloat3 d) material,
           st) in
      let '(material, layers, st) := set_bump io mat basepath (material, layers) st in
      (SetLayers layers material, st).

(** The material under construction is referenced by nobody else, so it is
    built as a value and becomes an object of the store when it is named
    and cached. The [scene] argument is not used by the source. *)
Definition TranslateMaterial (io : ImageIo) (mat : material_t) (basepath : string)
    (st : Loader) : ref * Loader :=
  match m_material_cache st !! name mat with
  | Some r => (r, st)
  | None =>
      let '(material, st) := classify io mat basepath st in
      let material := SetName (name mat) material in
      let '(r, st) := new_material material st in
      (r, cache_material (name mat) r st)
  end.

(** ** Outcomes of code that can throw or leave defined behaviour *)

(** Reading a vector out of range has no defined behaviour; a failed
    [assert] aborts. *)
Inductive fault : Type := out_of_range | assertion_failed (msg : string).

Inductive outcome (A : Type) : Type :=
| Ok (a : A)
| Throw (e : exception)
| Stuck (f : fault).

Arguments Ok {A} a.
Arguments Throw {A} e.
Arguments Stuck {A} f.

Definition bind {A B : Type} (m : outcome A) (k : A -> outcome B) : outcome B :=
  match m with
  | Ok a => k a
  | Throw e => Throw e
  | Stuck f => Stuck f
  end.

Notation "'let*' x ':=' m 'in' k" := (bind m (fun x => k))
  (at level 10, x name, m at level 100, k at level 200).

(** [v[i]] on a [std::vector]. *)
Definition at_ {A : Type} (v : list A) (i : nat) : outcome A :=
  match v !! i with
  | Some a => Ok a
  | None => Stuck out_of_range
  end.

(** [for (i = lo; i < lo + count; ++i) body]. *)
Fixpoint for_loop {S : Type} (body : nat -> S -> outcome S) (lo count : nat) (s : S)
  : outcome S :=
  match count with
  | O => Ok s
  | Datatypes.S c => let* s' := body lo s in for_loop body (Datatypes.S lo) c s'
  end.

(** ** The mesh splitter (the per-material loop body of [LoadScene]) *)

(** Arithmetic on [unsigned int] wraps at 2^32. *)
Definition u32 (n : N) : N := (n mod 2 ^ 32)%N.

(** The locals of one split: the map from old to new index, the remapped
    indices and the collected attribute data. *)
Record Buffers : Type := {
  used_indices : gmap N N;
  indices : list N;
  vertices : list float;
  normals : list float;
  texcoords : list float
}.

Definition no_buffers : Buffers :=
  {| used_indices := ∅; indices := []; vertices := []; normals := [];
     texcoords := [] |}.

(** [for (k = 0; k < count; ++k) dst.push_back(src[stride * old_index + k])],
    the index computed in [unsigned int]. *)
Definition push_back_range (src : list float) (stride old_index : N) (count : nat)
    (dst : list float) : outcome (list float) :=
  for_loop
    (fun k dst =>
       let* v := at_ src (N.to_nat (u32 (stride * old_index + N.of_nat k))) in
       Ok (dst ++ [v]))
    0 count dst.

(** One vertex reference of a face. *)
Definition visit_vertex (m : tinyobj.mesh_t) (old_index : N) (b : Buffers)
  : outcome Buffers :=
  match used_indices b !! old_index with
  | None =>
      let new_index := u32 (N.of_nat (length (vertices b) / 3)) in
      let* vs := push_back_range (tinyobj.positions m) 3 old_index 3 (vertices b) in
      let* ns := push_back_range (tinyobj.normals m) 3 old_index 3 (normals b) in
      let* ts :=
        if negb (bool_decide (tinyobj.texcoords m = []))
        then push_back_range (tinyobj.texcoords m) 2 old_index 2 (texcoords b)
        else Ok (texcoords b) in
      Ok {| used_indices := <[old_index := new_index]> (used_indices b);
            indices := indices b ++ [new_index];
            vertices := vs; normals := ns; texcoords := ts |}
  | Some new_index =>
      Ok {| used_indices := used_indices b;
            indices := indices b ++ [new_index];
            vertices := vertices b; normals := normals b;
            texcoords := texcoords b |}
  end.

(** One face: skipped unless it uses the current material. *)
Definition visit_face (m : tinyobj.mesh_t) (used_material : Z) (i : nat) (b : Buffers)
  : outcome Buffers :=
  let* id := at_ (tinyobj.material_ids m) i in
  if negb (Z.eqb id used_material) then Ok b
  else
    let* num_face_vertices := at_ (tinyobj.num_vertices m) i in
    if negb (N.eqb num_face_vertices 3)
    then Stuck (assertion_failed "expected triangles")
    else
      for_loop
        (fun j b =>
           let* old_index :=
             at_ (tinyobj.indices m) (N.to_nat num_face_vertices * i + j) in
           visit_vertex m old_index b)
        0 (N.to_nat num_face_vertices) b.

Definition split (m : tinyobj.mesh_t) (used_material : Z) : outcome Buffers :=
  for_loop (visit_face m used_material) 0 (length (tinyobj.material_ids m)) no_buffers.

(** [SetVertices] and [SetNormals] read [num] triples of floats, [SetUVs]
    reads [num] pairs. *)
Fixpoint pack3 (num : nat) (data : list float) : list float3 :=
  match num, data with
  | Datatypes.S n, a :: b :: c :: data' => mk_float3 a b c :: pack3 n data'
  | _, _ => []
  end.

Fixpoint pack2 (num : nat) (data : list float) : list float2 :=
  match num, data with
  | Datatypes.S n, a :: b :: data' => mk_float2 a b :: pack2 n data'
  | _, _ => []
  end.

(** The mesh created from the collected buffers, before a material is
    set. *)
Definition make_mesh (b : Buffers) : Mesh :=
  let num_vertices := length (vertices b) / 3 in
  let num_normals := length (normals b) / 3 in
  let num_uvs := length (texcoords b) / 2 in
  {| mesh_vertices := pack3 num_vertices (vertices b);
     mesh_normals := pack3 num_normals (normals b);
     mesh_uvs :=
       if negb (Nat.eqb num_uvs 0) then pack2 num_uvs (texcoords b)
       else replicate num_vertices (mk_float2 Float.zero Float.zero);
     mesh_indices := indices b;
     mesh_material := None |}.

Definition SetMaterial (r : ref) (m : Mesh) : Mesh :=
  {| mesh_vertices := mesh_vertices m; mesh_normals := mesh_normals m;
     mesh_uvs := mesh_uvs m; mesh_indices := mesh_indices m;
     mesh_material := Some r |}.

Definition GetNumIndices (m : Mesh) : nat := length (mesh_indices m).

(** ** The scene and [SceneIoObj::LoadScene] *)

Inductive Light : Type :=
| AreaLight (mesh : ref) (l : nat)
| DirectionalLight (direction radiance : float3)
| ImageBasedLight (texture background : TexturePtr) (multiplier : float).

(** Modelled from the spec: the scene container ([scene1.h] is outside
    the sources) keeps the attached shapes and lights in attach order. *)
Record Scene1 : Type := { m_shapes : list ref; m_lights : list Light }.

Definition Scene1_Create : Scene1 := {| m_shapes := []; m_lights := [] |}.

Definition AttachShape (mesh : ref) (scene : Scene1) : Scene1 :=
  {| m_shapes := m_shapes scene ++ [mesh]; m_lights := m_lights scene |}.

Definition AttachLight (light : Light) (scene : Scene1) : Scene1 :=
  {| m_shapes := m_shapes scene; m_lights := m_lights scene ++ [light] |}.

Definition new_mesh (m : Mesh) (st : Loader) : ref * Loader :=
  (length (mesh_store st),
   {| m_texture_cache := m_texture_cache st;
      m_material_cache := m_material_cache st;
      texture_store := texture_store st;
      material_store := material_store st;
      mesh_store := mesh_store st ++ [m];
      log := log st |}).

(** The first loop: translate every material record, in order, and collect
    the emissive ones. [materials[i]->HasEmission()] reads the object
    behind the reference. *)
Fixpoint translate_materials (io : ImageIo) (objmaterials : list material_t)
    (basepath : string) (materials : list ref) (emissives : gset ref) (st : Loader)
  : outcome (list ref * gset ref) * Loader :=
  match objmaterials with
  | [] => (Ok (materials, emissives), st)
  | mat :: rest =>
      let '(r, st) := TranslateMaterial io mat basepath st in
      match material_store st !! r with
      | None => (Stuck out_of_range, st)
      | Some material =>
          let emissives := if HasEmission material then {[r]} ∪ emissives else emissives in
          translate_materials io rest basepath (materials ++ [r]) emissives st
      end
  end.

(** [std::set<int>]: ascending, without duplicates. *)
Fixpoint set_insert (x : Z) (s : list Z) : list Z :=
  match s with
  | [] => [x]
  | y :: s' =>
      if Z.ltb x y then x :: s
      else if Z.eqb x y then s
      else y :: set_insert x s'
  end.

Definition std_set (l : list Z) : list Z := foldr set_insert [] l.

(** [for (l = 0; l < mesh->GetNumIndices() / 3; ++l)]: one area light per
    triple of indices. *)
Definition attach_area_lights (mesh_ptr : ref) (mesh : Mesh) (scene : Scene1) : Scene1 :=
  foldl (fun scene l => AttachLight (AreaLight mesh_ptr l) scene) scene
        (seq 0 (GetNumIndices mesh / 3)).

(** The body of the loop over the materials used by a shape: split, create
    the mesh, set its material, attach it and its area lights. *)
Definition attach_submesh (materials : list ref) (emissives : gset ref)
    (shape : tinyobj.shape_t) (used_material : Z) (sc : Scene1 * Loader)
  : outcome (Scene1 * Loader) :=
  let '(scene, st) := sc in
  let* b := split (tinyobj.mesh shape) used_material in
  let mesh := make_mesh b in
  let* mesh :=
    if Z.leb 0 used_material then
      let* material := at_ materials (Z.to_nat used_material) in
      Ok (SetMaterial material mesh)
    else Ok mesh in
  let '(mesh_ptr, st) := new_mesh mesh st in
  let scene := AttachShape mesh_ptr scene in
  let* emissive :=
    if Z.leb 0 used_material then
      let* material := at_ materials (Z.to_nat used_material) in
      Ok (bool_decide (material ∈ emissives))
    else Ok false in
  Ok (if emissive then attach_area_lights mesh_ptr mesh scene else scene, st).

Fixpoint attach_submeshes (materials : list ref) (emissives : gset ref)
    (shape : tinyobj.shape_t) (used_materials : list Z) (sc : Scene1 * Loader)
  : outcome (Scene1 * Loader) :=
  match used_materials with
  | [] => Ok sc
  | used_material :: rest =>
      let* sc := attach_submesh materials emissives shape used_material sc in
      attach_submeshes materials emissives shape rest sc
  end.

Fixpoint attach_shapes (materials : list ref) (emissives : gset ref)
    (objshapes : list tinyobj.shape_t) (sc : Scene1 * Loader)
  : outcome (Scene1 * Loader) :=
  match objshapes with
  | [] => Ok sc
  | shape :: rest =>
      let used_materials := std_set (tinyobj.material_ids (tinyobj.mesh shape)) in
      let* sc := attach_submeshes materials emissives shape used_materials sc in
      attach_shapes materials emissives rest sc
  end.

(** [LoadScene]; [parsed] is what [tinyobj::LoadObj] gave for the file:
    an error message, or the shapes and material records. *)
Definition LoadScene (io : ImageIo)
    (parsed : string + list tinyobj.shape_t * list material_t)
    (filename basepath : string) (st : Loader) : outcome Scene1 * Loader :=
  let st := LogInfo ("Loading a scene from OBJ: " +:+ filename +:+ " ... ") st in
  match parsed with
  | inl err => (Throw (runtime_error err), st)
  | inr (objshapes, objmaterials) =>
      let st := LogInfo ("Success" +:+ LF) st in
      let scene := Scene1_Create in
      match translate_materials io objmaterials basepath [] ∅ st with
      | (Ok (materials, emissives), st) =>
          match attach_shapes materials emissives objshapes (scene, st) with
          | Ok (scene, st) =>
              match LoadImage io "../Resources/Textures/studio015.hdr" with
              | inl e => (Throw e, st)
              | inr texture =>
                  let '(ibl_texture, st) := new_texture texture st in
                  let ibl :=
                    ImageBasedLight (Some ibl_texture) (Some ibl_texture)
                                    (Float.lit 15 1) in
                  let light :=
                    DirectionalLight
                      (mk_float3 (Float.lit 1 10) (Float.lit (-1) 1) (Float.lit (-1) 10))
                      (mk_float3 (Float.lit 1 1) (Float.lit 1 1) (Float.lit 1 1)) in
                  let scene := AttachLight light scene in
                  let scene := AttachLight ibl scene in
                  (Ok scene, st)
              end
          | Throw e => (Throw e, st)
          | Stuck f => (Stuck f, st)
          end
      | (Throw e, st) => (Throw e, st)
      | (Stuck f, st) => (Stuck f, st)
      end
  end.

(** ** Vocabulary of the statements *)

(** The five rules of the classification, in priority order. *)
Inductive Branch : Type :=
| Emission
| RefractionDiffuseReflection
| ReflectionOnly
| DiffuseReflection
| DiffuseOnly.

Definition branch_of (mat : material_t) : Branch :=
  let s := to_float3 (specular mat) in
  let r := to_float3 (transmittance mat) in
  let d := to_float3 (diffuse mat) in
  if sqnorm_pos (to_float3 (emission mat)) then Emission
  else if sqnorm_pos r && sqnorm_pos s then RefractionDiffuseReflection
  else if sqnorm_small d && sqnorm_pos s then ReflectionOnly
  else if sqnorm_pos s || negb (empty (specular_texname mat)) then DiffuseReflection
  else DiffuseOnly.

(** The material object behind the reference that [TranslateMaterial]
    returns, [None] if the reference is dangling. *)
Definition translated (io : ImageIo) (mat : material_t) (basepath : string)
    (st : Loader) : option Material :=
  let '(r, st') := TranslateMaterial io mat basepath st in material_store st' !! r.

(** The loader after a run of material requests, and after a run of
    texture requests. *)
Definition translate_all (requests : list (ImageIo * material_t * string))
    (st : Loader) : Loader :=
  foldl (fun st q => (TranslateMaterial q.1.1 q.1.2 q.2 st).2) st requests.

Definition load_all (requests : list (ImageIo * string * string)) (st : Loader)
  : Loader :=
  foldl (fun st q => (LoadTexture q.1.1 q.1.2 q.2 st).2) st requests.

(** The vertex references of face [i], and whether face [i] uses the
    material id. *)
Definition face_indices (m : tinyobj.mesh_t) (i : nat) : list N :=
  take 3 (drop (3 * i) (tinyobj.indices m)).

Definition uses (m : tinyobj.mesh_t) (used_material : Z) (i : nat) : bool :=
  match tinyobj.material_ids m !! i with
  | Some id => Z.eqb id used_material
  | None => false
  end.

(** The original vertex indices referenced by the faces that use the
    material id, in face order. *)
Definition face_refs (m : tinyobj.mesh_t) (used_material : Z) : list N :=
  flat_map (fun i => if uses m used_material i then face_indices m i else [])
           (seq 0 (length (tinyobj.material_ids m))).

(** The distinct elements of a list in order of first occurrence, and the
    place of an element in a list. *)
Definition first_occurrences (l : list N) : list N :=
  foldl (fun seen x => if bool_decide (x ∈ seen) then seen else seen ++ [x]) [] l.

Fixpoint position (x : N) (l : list N) : option nat :=
  match l with
  | [] => None
  | y :: l' => if N.eqb y x then Some 0 else Datatypes.S <$> position x l'
  end.

Definition compact (distinct : list N) (old_index : N) : N :=
  N.of_nat (default 0 (position old_index distinct)).

(** What the splitter expects of the parser's output for the faces of one
    material id: every such face is a triangle with its three references
    present, every reference is an [unsigned int] and addresses attribute
    data that is present. *)
Definition in_range (data : list float) (stride old_index : N) (count : nat) : bool :=
  forallb
    (fun k => Nat.ltb (N.to_nat (u32 (stride * old_index + N.of_nat k))) (length data))
    (seq 0 count).

Definition vertex_ok (m : tinyobj.mesh_t) (old_index : N) : bool :=
  (old_index <? 2 ^ 32)%N
  && in_range (tinyobj.positions m) 3 old_index 3
  && in_range (tinyobj.normals m) 3 old_index 3
  && (bool_decide (tinyobj.texcoords m = [])
      || in_range (tinyobj.texcoords m) 2 old_index 2).

Definition face_ok (m : tinyobj.mesh_t) (i : nat) : bool :=
  bool_decide (tinyobj.num_vertices m !! i = Some 3%N)
  && Nat.leb (3 * i + 3) (length (tinyobj.indices m))
  && forallb (vertex_ok m) (face_indices m i).

Definition shape_ok (m : tinyobj.mesh_t) (used_material : Z) : bool :=
  forallb (fun i => negb (uses m used_material i) || face_ok m i)
          (seq 0 (length (tinyobj.material_ids m))).

(** The loop invariant of the splitter after the references [seen]: the
    map sends each distinct reference to its place in order of first
    occurrence, the new index buffer is the image of [seen], and the
    attribute buffers hold one vertex per distinct reference. *)
Definition split_inv (m : tinyobj.mesh_t) (seen : list N) (b : Buffers) : Prop :=
  let distinct := first_occurrences seen in
  (∀ old_index,
     used_indices b !! old_index = N.of_nat <$> position old_index distinct) ∧
  indices b = map (compact distinct) seen ∧
  length (vertices b) = 3 * length distinct ∧
  length (normals b) = 3 * length distinct ∧
  (if bool_decide (tinyobj.texcoords m = []) then texcoords b = []
   else length (texcoords b) = 2 * length distinct).

(** An outcome that is not an exception. *)
Definition no_throw {A : Type} (o : outcome A) : Prop := ∀ e, o ≠ Throw e.

(** ** Sample inputs *)

Definition f32 (n : Z) : float := Float.lit n 1.

(** A decoder for which every file is missing, and one that decodes every
    path to a one-texel image. *)
Definition io_none : ImageIo :=
  {| LoadImage := fun _ => inl (runtime_error "Failed to load image") |}.

Definition io_any : ImageIo :=
  {| LoadImage := fun _ => inr {| texture_name := ""; texture_data := [255%Z] |} |}.

Definition black : float * float * float := (f32 0, f32 0, f32 0).
Definition white : float * float * float := (f32 1, f32 1, f32 1).
Definition red : float * float * float := (f32 1, f32 0, f32 0).

(** A red emitter whose diffuse and specular colours are set too. *)
Definition emitter : material_t :=
  {| name := "lamp"; diffuse := white; specular := white; transmittance := black;
     emission := red; diffuse_texname := ""; specular_texname := "";
     bump_texname := "" |}.

(** A diffuse-only material, without and with a diffuse texture. *)
Definition matte : material_t :=
  {| name := "matte"; diffuse := white; specular := black; transmittance := black;
     emission := black; diffuse_texname := ""; specular_texname := "";
     bump_texname := "" |}.

Definition textured_matte : material_t :=
  {| name := "matte"; diffuse := white; specular := black; transmittance := black;
     emission := black; diffuse_texname := "wood.png"; specular_texname := "";
     bump_texname := "" |}.

(** Specular and transmittance both set, with a specular texture. *)
Definition glass : material_t :=
  {| name := "glass"; diffuse := white; specular := white; transmittance := white;
     emission := black; diffuse_texname := ""; specular_texname := "gloss.png";
     bump_texname := "" |}.

(** Diffuse and specular both set, both textured. *)
Definition plastic : material_t :=
  {| name := "plastic"; diffuse := white; specular := white; transmittance := black;
     emission := black; diffuse_texname := "wood.png";
     specular_texname := "gloss.png"; bump_texname := "bump.png" |}.

(** Two triangles on four vertices, both faces of material 0, no
    texture coordinates; the four vertices share one position. *)
Definition quad : tinyobj.mesh_t :=
  {| tinyobj.positions := map f32 [0; 0; 0; 0; 0; 0; 0; 0; 0; 0; 0; 0]%Z;
     tinyobj.normals := map f32 [0; 0; 1; 0; 0; 1; 0; 0; 1; 0; 0; 1]%Z;
     tinyobj.texcoords := [];
     tinyobj.indices := [0; 1; 2; 0; 2; 3]%N;
     tinyobj.num_vertices := [3; 3]%N;
     tinyobj.material_ids := [0; 0]%Z |}.

(** ** Invariants of the loader *)

(** Every cached texture name refers to a texture of the store that
    carries that name, and likewise for materials. *)
Definition texture_cache_ok (st : Loader) : Prop :=
  ∀ n r, m_texture_cache st !! n = Some r →
         ∃ t, texture_store st !! r = Some t ∧ texture_name t = n.

Definition material_cache_ok (st : Loader) : Prop :=
  ∀ n r, m_material_cache st !! n = Some r →
         ∃ m, material_store st !! r = Some m ∧ material_name m = n.

(** The loader [st'] extends [st]: objects and cache entries of [st] are
    still there, unchanged, and the log has only grown. *)
Definition extends (st st' : Loader) : Prop :=
  texture_store st `prefix_of` texture_store st' ∧
  material_store st `prefix_of` material_store st' ∧
  mesh_store st `prefix_of` mesh_store st' ∧
  m_texture_cache st ⊆ m_texture_cache st' ∧
  m_material_cache st ⊆ m_material_cache st' ∧
  log st `prefix_of` log st'.


(** The node that the bump block assigns to the shading normal. *)
Definition bump_remap (texture : TexturePtr) : InputMap :=
  InputMap_Remap
    (InputMap_ConstantFloat3
       (mk_float3 (Float.lit 0 1) (Float.lit 1 1) (Float.lit 0 1)))
    (InputMap_ConstantFloat3
       (mk_float3 (Float.lit (-1) 1) (Float.lit 1 1) (Float.lit 0 1)))
    (InputMap_SamplerBumpMap texture).

(** The attributes of an original vertex: the three floats at
    [3 * old_index + k] and the two floats at [2 * old_index + k], the
    index computed in [unsigned int]; [None] when one is out of range. *)
Definition attribute_at (data : list float) (stride old_index : N) (k : nat)
  : option float :=
  data !! N.to_nat (u32 (stride * old_index + N.of_nat k)).

Definition attribute3 (data : list float) (old_index : N) : option float3 :=
  match attribute_at data 3 old_index 0, attribute_at data 3 old_index 1,
        attribute_at data 3 old_index 2 with
  | Some a, Some b, Some c => Some (mk_float3 a b c)
  | _, _, _ => None
  end.

Definition attribute2 (data : list float) (old_index : N) : option float2 :=
  match attribute_at data 2 old_index 0, attribute_at data 2 old_index 1 with
  | Some a, Some b => Some (mk_float2 a b)
  | _, _ => None
  end.

(** The floats that [push_back_range] appends, where they are present. *)
Definition gather (data : list float) (stride old_index : N) (count : nat)
  : list float :=
  omap (attribute_at data stride old_index) (seq 0 count).

(** The attribute buffers after the references [seen]: the data of the
    distinct references, in order of first occurrence. *)
Definition data_inv (m : tinyobj.mesh_t) (seen : list N) (b : Buffers) : Prop :=
  let distinct := first_occurrences seen in
  vertices b = flat_map (fun old => gather (tinyobj.positions m) 3 old 3) distinct ∧
  normals b = flat_map (fun old => gather (tinyobj.normals m) 3 old 3) distinct ∧
  texcoords b =
    if bool_decide (tinyobj.texcoords m = []) then []
    else flat_map (fun old => gather (tinyobj.texcoords m) 2 old 2) distinct.

(** What [LoadScene] expects of the parser's output: every shape is as
    the splitter expects for each material id its faces carry, and every
    id that is not negative addresses a material record. *)
Definition submesh_input_ok (nmaterials : nat) (shape : tinyobj.shape_t) (id : Z)
  : bool :=
  shape_ok (tinyobj.mesh shape) id
  && (Z.ltb id 0 || Nat.ltb (Z.to_nat id) nmaterials).

Definition shape_input_ok (nmaterials : nat) (shape : tinyobj.shape_t) : bool :=
  forallb (submesh_input_ok nmaterials shape)
          (std_set (tinyobj.material_ids (tinyobj.mesh shape))).

Definition input_ok (nmaterials : nat) (objshapes : list tinyobj.shape_t) : bool :=
  forallb (shape_input_ok nmaterials) objshapes.

(** The number of (shape, material id) pairs of the parser's output. *)
Definition submesh_count (objshapes : list tinyobj.shape_t) : nat :=
  sum_list
    (map (fun shape => length (std_set (tinyobj.material_ids (tinyobj.mesh shape))))
         objshapes).

(** A consistent mesh: at least one triangle, whole triangles only, every
    index addresses a vertex of the mesh, one normal and one UV per
    vertex. *)
Definition mesh_ok (mesh : Mesh) : Prop :=
  mesh_indices mesh ≠ [] ∧
  (∃ K, length (mesh_indices mesh) = 3 * K) ∧
  Forall (fun i => (i < N.of_nat (length (mesh_vertices mesh)))%N)
         (mesh_indices mesh) ∧
  length (mesh_normals mesh) = length (mesh_vertices mesh) ∧
  length (mesh_uvs mesh) = length (mesh_vertices mesh).

(** A consistent scene under construction: every attached shape is a
    consistent mesh of the store whose material, if any, is an entry of the
    material array, and every light is an area light on a triangle of an
    attached mesh whose material is in the emissive set. *)
Definition scene_ok (materials : list ref) (emissives : gset ref) (scene : Scene1)
    (st : Loader) : Prop :=
  (∀ p, p ∈ m_shapes scene →
     ∃ mesh, mesh_store st !! p = Some mesh ∧ mesh_ok mesh ∧
             ∀ r, mesh_material mesh = Some r → r ∈ materials) ∧
  (∀ light, light ∈ m_lights scene →
     ∃ p l mesh r, light = AreaLight p l ∧ p ∈ m_shapes scene ∧
       mesh_store st !! p = Some mesh ∧
       3 * l + 3 ≤ length (mesh_indices mesh) ∧
       mesh_material mesh = Some r ∧ r ∈ emissives).

(** The loader [st'] is [st] with meshes added and nothing else changed. *)
Definition only_meshes_added (st st' : Loader) : Prop :=
  m_texture_cache st' = m_texture_cache st ∧
  m_material_cache st' = m_material_cache st ∧
  texture_store st' = texture_store st ∧
  material_store st' = material_store st ∧
  log st' = log st ∧
  mesh_store st `prefix_of` mesh_store st'.

(** ** More sample inputs *)


(** A square with texture coordinates whose two triangles carry material 0
    and no material. *)
Definition square : tinyobj.mesh_t :=
  {| tinyobj.positions := map f32 [0; 0; 0; 1; 0; 0; 1; 1; 0; 0; 1; 0]%Z;
     tinyobj.normals := map f32 [0; 0; 1; 0; 0; 1; 0; 0; 1; 0; 0; 1]%Z;
     tinyobj.texcoords := map f32 [0; 0; 1; 0; 1; 1; 0; 1]%Z;
     tinyobj.indices := [0; 1; 2; 3; 2; 0]%N;
     tinyobj.num_vertices := [3; 3]%N;
     tinyobj.material_ids := [0; -1]%Z |}.


(** A decoder that finds the environment image of [LoadScene] and no
    other file. *)
Definition io_env_only : ImageIo :=
  {| LoadImage := fun path =>
       if String.eqb path "../Resources/Textures/studio015.hdr"
       then inr {| texture_name := ""; texture_data := [255%Z] |}
       else inl (runtime_error "Failed to load image") |}.

(** A diffuse-only record that carries the name of [emitter]. *)
Definition lamp_matte : material_t :=
  {| name := "lamp"; diffuse := white; specular := black; transmittance := black;
     emission := black; diffuse_texname := ""; specular_texname := "";
     bump_texname := "" |}.

(** * Properties *)

(** ** Textures and materials *)

Lemma LoadTexture_frame io bp n st :
  m_material_cache (LoadTexture io bp n st).2 = m_material_cache st ∧
  material_store (LoadTexture io bp n st).2 = material_store st ∧
  mesh_store (LoadTexture io bp n st).2 = mesh_store st.
Proof.
  unfold LoadTexture.
  destruct (m_texture_cache st !! n); [done|].
  destruct (LoadImage io (bp +:+ n)); done.
Qed.

Lemma set_bump_spec io mat bp m l st :
  ∃ m' l' st', set_bump io mat bp (m, l) st = (m', l', st') ∧
    material_name m' = material_name m ∧ layers m' = layers m ∧
    m_material_cache st' = m_material_cache st ∧
    material_store st' = material_store st ∧
    mesh_store st' = mesh_store st ∧
    ((empty (bump_texname mat) = true ∧ m' = m ∧ l' = l ∧ st' = st) ∨
     (empty (bump_texname mat) = false ∧ l' = Z.lor l Layers.kShadingNormalLayer ∧
      ∃ v, inputs m' = ("uberv2.shading_normal", v) :: inputs m)).
Proof.
  unfold set_bump.
  destruct (empty (bump_texname mat)) eqn:E; simpl.
  - eexists _, _, _. split; [reflexivity|]. repeat split; auto.
  - pose proof (LoadTexture_frame io bp (bump_texname mat) st) as (F1 & F2 & F3).
    destruct (LoadTexture io bp (bump_texname mat) st) as [t st'] eqn:L. simpl in *.
    eexists _, _, _. split; [reflexivity|]. repeat split; auto.
    right. repeat split; auto. eexists. reflexivity.
Qed.

Lemma classify_frame io mat bp st :
  m_material_cache (classify io mat bp st).2 = m_material_cache st ∧
  material_store (classify io mat bp st).2 = material_store st ∧
  mesh_store (classify io mat bp st).2 = mesh_store st.
Proof.
  unfold classify.
  repeat match goal with
  | |- context [if ?c then _ else _] => destruct c
  | |- context [LoadTexture ?io ?bp ?n ?s] =>
      let F := fresh "F" in
      pose proof (LoadTexture_frame io bp n s) as F;
      destruct (LoadTexture io bp n s) as [? ?]; simpl in F; destruct F as (? & ? & ?)
  | |- context [set_bump ?io ?mat ?bp (?m, ?l) ?s] =>
      let F := fresh "F" in
      destruct (set_bump_spec io mat bp m l s) as (? & ? & ? & F & _ & _ & ? & ? & ? & _);
      rewrite F
  end; simpl; repeat split; congruence.
Qed.

Lemma TranslateMaterial_miss io mat bp st :
  m_material_cache st !! name mat = None →
  TranslateMaterial io mat bp st =
    (length (material_store st),
     cache_material (name mat) (length (material_store st))
       (new_material (SetName (name mat) (classify io mat bp st).1)
          (classify io mat bp st).2).2).
Proof.
  intros H. unfold TranslateMaterial. rewrite H.
  pose proof (classify_frame io mat bp st) as (_ & F & _).
  destruct (classify io mat bp st) as [m st1]. simpl in *.
  unfold new_material. rewrite F. reflexivity.
Qed.

Lemma translated_miss io mat bp st :
  m_material_cache st !! name mat = None →
  translated io mat bp st = Some (SetName (name mat) (classify io mat bp st).1).
Proof.
  intros H. unfold translated. rewrite TranslateMaterial_miss by done.
  pose proof (classify_frame io mat bp st) as (_ & F & _).
  simpl. rewrite F. apply list_lookup_middle. done.
Qed.

(** C1. A record whose emission colour has a positive squared norm is
    translated to a material whose layer mask is the emission layer alone:
    no diffuse, reflection, refraction or shading-normal layer (nor any
    other), whatever its diffuse, specular, transmittance and bump fields
    are. The record is translated, that is, its name is not yet cached. *)
Theorem emission_only io mat bp st :
  m_material_cache st !! name mat = None →
  sqnorm_pos (to_float3 (emission mat)) = true →
  ∃ m, translated io mat bp st = Some m ∧
    layers m = Layers.kEmissionLayer ∧
    has_layer m Layers.kEmissionLayer = true ∧
    has_layer m Layers.kDiffuseLayer = false ∧
    has_layer m Layers.kReflectionLayer = false ∧
    has_layer m Layers.kRefractionLayer = false ∧
    has_layer m Layers.kShadingNormalLayer = false ∧
    has_layer m Layers.kTransparencyLayer = false ∧
    has_layer m Layers.kCoatingLayer = false ∧
    has_layer m Layers.kSSSLayer = false.
Proof.
  intros Hmiss He. eexists. split; [by apply translated_miss|].
  assert (L : layers (SetName (name mat) (classify io mat bp st).1) = Layers.kEmissionLayer).
  { unfold classify. rewrite He.
    destruct (negb (empty (diffuse_texname mat))); [|done].
    by destruct (LoadTexture io bp (diffuse_texname mat) st). }
  unfold has_layer. rewrite L. by vm_compute.
Qed.

Lemma TranslateMaterial_hit io mat bp st r :
  m_material_cache st !! name mat = Some r →
  TranslateMaterial io mat bp st = (r, st).
Proof. intros H. unfold TranslateMaterial. by rewrite H. Qed.

Lemma TranslateMaterial_cached io mat bp st :
  m_material_cache (TranslateMaterial io mat bp st).2 !! name mat
  = Some (TranslateMaterial io mat bp st).1.
Proof.
  destruct (m_material_cache st !! name mat) as [r|] eqn:H.
  - by rewrite (TranslateMaterial_hit _ _ _ _ r).
  - rewrite TranslateMaterial_miss by done. simpl.
    pose proof (classify_frame io mat bp st) as (F & _ & _).
    rewrite F, H. apply lookup_insert_eq.
Qed.

Lemma TranslateMaterial_keeps io mat bp st n r :
  m_material_cache st !! n = Some r →
  m_material_cache (TranslateMaterial io mat bp st).2 !! n = Some r.
Proof.
  intros Hn.
  destruct (m_material_cache st !! name mat) as [r'|] eqn:H.
  - by rewrite (TranslateMaterial_hit _ _ _ _ r').
  - rewrite TranslateMaterial_miss by done. simpl.
    pose proof (classify_frame io mat bp st) as (F & _ & _).
    rewrite F, H. rewrite lookup_insert_ne; [done|]. congruence.
Qed.

Lemma translate_all_keeps requests st n r :
  m_material_cache st !! n = Some r →
  m_material_cache (translate_all requests st) !! n = Some r.
Proof.
  revert st. induction requests as [|q requests IH]; intros st H; [done|].
  simpl. apply IH. by apply TranslateMaterial_keeps.
Qed.

(** C6. After a request for a record, a request for any record of the
    same name, at once or after any run of other requests, returns the
    same reference and leaves the loader as it is: nothing is classified,
    loaded, logged or created. The name is cached for the returned
    reference; when the first request was a miss, the reference is to a new
    material, the result of the classification stamped with the name. *)
Theorem material_cache_idempotent io mat bp st requests io' mat' bp' :
  name mat' = name mat →
  let r := (TranslateMaterial io mat bp st).1 in
  let st1 := (TranslateMaterial io mat bp st).2 in
  let st2 := translate_all requests st1 in
  TranslateMaterial io' mat' bp' st1 = (r, st1) ∧
  TranslateMaterial io' mat' bp' st2 = (r, st2) ∧
  m_material_cache st1 !! name mat = Some r ∧
  (m_material_cache st !! name mat = None →
   r = length (material_store st) ∧
   ∃ m, material_store st1 !! r = Some m ∧ material_name m = name mat ∧
        m = SetName (name mat) (classify io mat bp st).1).
Proof.
  intros Hn r st1 st2.
  pose proof (TranslateMaterial_cached io mat bp st) as Hc. fold r st1 in Hc.
  split; [|split; [|split]].
  - apply TranslateMaterial_hit. by rewrite Hn.
  - apply TranslateMaterial_hit. rewrite Hn. by apply translate_all_keeps.
  - done.
  - intros Hmiss. pose proof (translated_miss io mat bp st Hmiss) as T.
    unfold translated in T. subst r st1.
    rewrite TranslateMaterial_miss in * by done. simpl in *.
    split; [done|]. eexists. split; [exact T|]. done.
Qed.

Lemma LoadTexture_hit io bp n st r :
  m_texture_cache st !! n = Some r → LoadTexture io bp n st = (Some r, st).
Proof. intros H. unfold LoadTexture. by rewrite H. Qed.

Lemma LoadTexture_fail io bp n st e :
  m_texture_cache st !! n = None →
  LoadImage io (bp +:+ n) = inl e →
  LoadTexture io bp n st =
    (nullptr, LogInfo ("Missing texture: " +:+ n +:+ LF)
                (LogInfo ("Loading " +:+ n +:+ LF) st)).
Proof. intros H E. unfold LoadTexture. by rewrite H, E. Qed.

Lemma LoadTexture_success io bp n st t :
  m_texture_cache st !! n = None →
  LoadImage io (bp +:+ n) = inr t →
  LoadTexture io bp n st =
    (Some (length (texture_store st)),
     cache_texture n (length (texture_store st))
       (new_texture (Texture_SetName n t) (LogInfo ("Loading " +:+ n +:+ LF) st)).2).
Proof. intros H E. unfold LoadTexture. by rewrite H, E. Qed.

Lemma LoadTexture_keeps io bp n' st n r :
  m_texture_cache st !! n = Some r →
  m_texture_cache (LoadTexture io bp n' st).2 !! n = Some r.
Proof.
  intros Hn. unfold LoadTexture.
  destruct (m_texture_cache st !! n') as [r'|] eqn:H; [done|].
  destruct (LoadImage io (bp +:+ n')); simpl; [done|].
  rewrite lookup_insert_ne; [done|]. congruence.
Qed.

Lemma load_all_keeps requests st n r :
  m_texture_cache st !! n = Some r →
  m_texture_cache (load_all requests st) !! n = Some r.
Proof.
  revert st. induction requests as [|q requests IH]; intros st H; [done|].
  simpl. apply IH. by apply LoadTexture_keeps.
Qed.

(** C10. Only successful decodes are cached. When the decode fails the
    result is [nullptr], the cache is unchanged and has no entry for the
    name, so that a later request decodes again: it returns a new texture
    if the decode now succeeds and [nullptr] if not. When the decode
    succeeds the texture is cached under the name, and every later request
    for the name, after any run of other requests, returns that reference
    and leaves the loader as it is, whatever the decoder would do. *)
Theorem texture_cache_memoizes_successes io bp n st :
  m_texture_cache st !! n = None →
  let p := (LoadTexture io bp n st).1 in
  let st1 := (LoadTexture io bp n st).2 in
  (∀ e, LoadImage io (bp +:+ n) = inl e →
     p = nullptr ∧
     m_texture_cache st1 = m_texture_cache st ∧
     m_texture_cache st1 !! n = None ∧
     texture_store st1 = texture_store st ∧
     ∀ io' bp',
       match LoadImage io' (bp' +:+ n) with
       | inr t =>
           (LoadTexture io' bp' n st1).1 = Some (length (texture_store st1)) ∧
           texture_store (LoadTexture io' bp' n st1).2
             = texture_store st1 ++ [Texture_SetName n t]
       | inl _ => (LoadTexture io' bp' n st1).1 = nullptr
       end) ∧
  (∀ t, LoadImage io (bp +:+ n) = inr t →
     ∃ r, p = Some r ∧
       m_texture_cache st1 !! n = Some r ∧
       texture_store st1 !! r = Some (Texture_SetName n t) ∧
       ∀ requests io' bp',
         LoadTexture io' bp' n (load_all requests st1)
         = (Some r, load_all requests st1)).
Proof.
  intros Hmiss p st1. split.
  - intros e E. subst p st1. rewrite (LoadTexture_fail _ _ _ _ e) by done. simpl.
    repeat split; try done.
    intros io' bp'. destruct (LoadImage io' (bp' +:+ n)) as [e'|t] eqn:E'.
    + by rewrite (LoadTexture_fail _ _ _ _ e').
    + by rewrite (LoadTexture_success _ _ _ _ t).
  - intros t E. subst p st1. rewrite (LoadTexture_success _ _ _ _ t) by done. simpl.
    eexists. split; [reflexivity|]. split; [apply lookup_insert_eq|].
    split; [by apply list_lookup_middle|].
    intros requests io' bp'. apply LoadTexture_hit, load_all_keeps. simpl.
    apply lookup_insert_eq.
Qed.

Lemma branch_of_Emission mat :
  branch_of mat = Emission ↔ sqnorm_pos (to_float3 (emission mat)) = true.
Proof.
  unfold branch_of.
  destruct (sqnorm_pos (to_float3 (emission mat))); [done|].
  repeat match goal with |- context [if ?c then _ else _] => destruct c end; done.
Qed.

Lemma branch_of_RefractionDiffuseReflection mat :
  branch_of mat = RefractionDiffuseReflection →
  sqnorm_pos (to_float3 (emission mat)) = false ∧
  sqnorm_pos (to_float3 (transmittance mat)) && sqnorm_pos (to_float3 (specular mat)) = true.
Proof.
  unfold branch_of.
  repeat match goal with |- context [if ?c then _ else _] => destruct c end; done.
Qed.

Lemma branch_of_ReflectionOnly mat :
  branch_of mat = ReflectionOnly →
  sqnorm_pos (to_float3 (emission mat)) = false ∧
  sqnorm_pos (to_float3 (transmittance mat)) && sqnorm_pos (to_float3 (specular mat)) = false ∧
  sqnorm_small (to_float3 (diffuse mat)) && sqnorm_pos (to_float3 (specular mat)) = true.
Proof.
  unfold branch_of.
  repeat match goal with |- context [if ?c then _ else _] => destruct c end; done.
Qed.

Lemma branch_of_DiffuseReflection mat :
  branch_of mat = DiffuseReflection →
  sqnorm_pos (to_float3 (emission mat)) = false ∧
  sqnorm_pos (to_float3 (transmittance mat)) && sqnorm_pos (to_float3 (specular mat)) = false ∧
  sqnorm_small (to_float3 (diffuse mat)) && sqnorm_pos (to_float3 (specular mat)) = false ∧
  sqnorm_pos (to_float3 (specular mat)) || negb (empty (specular_texname mat)) = true.
Proof.
  unfold branch_of.
  repeat match goal with |- context [if ?c then _ else _] => destruct c end; done.
Qed.

Lemma branch_of_DiffuseOnly mat :
  branch_of mat = DiffuseOnly →
  sqnorm_pos (to_float3 (emission mat)) = false ∧
  sqnorm_pos (to_float3 (transmittance mat)) && sqnorm_pos (to_float3 (specular mat)) = false ∧
  sqnorm_small (to_float3 (diffuse mat)) && sqnorm_pos (to_float3 (specular mat)) = false ∧
  sqnorm_pos (to_float3 (specular mat)) || negb (empty (specular_texname mat)) = false.
Proof.
  unfold branch_of.
  repeat match goal with |- context [if ?c then _ else _] => destruct c end; done.
Qed.

(** Stepping through the body of [classify]: split on the tests that are
    left, name the result of each texture request, and replace the bump
    block by its two possible results. *)
Ltac step_classify :=
  repeat match goal with
  | |- context [negb (empty ?n)] =>
      let E := fresh "E" in destruct (empty n) eqn:E; simpl negb; cbv iota
  | |- context [LoadTexture ?io ?bp ?n ?s] =>
      let L := fresh "L" in
      destruct (LoadTexture io bp n s) as [? ?] eqn:L
  | |- context [set_bump ?io ?mat ?bp (?m, ?l) ?s] =>
      let F := fresh "F" in
      let B := fresh "B" in
      destruct (set_bump_spec io mat bp m l s)
        as (? & ? & ? & F & _ & _ & _ & _ & _ & B);
      rewrite F;
      destruct B as [(_ & -> & -> & ->) | (_ & -> & ? & B)]
  end.

(** C9. In the Diffuse+Reflection branch the value of the diffuse colour
    slot is the flat diffuse colour and the value of the reflection colour
    slot is the flat specular colour, also when a texture is named: the
    history of the slot then shows the flat colour written right after the
    texture. *)
Theorem diffuse_reflection_flat_colors io mat bp st :
  m_material_cache st !! name mat = None →
  branch_of mat = DiffuseReflection →
  ∃ m, translated io mat bp st = Some m ∧
    GetInputValue "uberv2.diffuse.color" m
      = Some (InputMap_ConstantFloat3 (to_float3 (diffuse mat))) ∧
    GetInputValue "uberv2.reflection.color" m
      = Some (InputMap_ConstantFloat3 (to_float3 (specular mat))) ∧
    (empty (diffuse_texname mat) = false →
     ∃ t newer older,
       inputs m = newer
         ++ ("uberv2.diffuse.color", InputMap_ConstantFloat3 (to_float3 (diffuse mat)))
         :: ("uberv2.diffuse.color", pow_sampler t) :: older) ∧
    (empty (specular_texname mat) = false →
     ∃ t newer older,
       inputs m = newer
         ++ ("uberv2.reflection.color",
             InputMap_ConstantFloat3 (to_float3 (specular mat)))
         :: ("uberv2.reflection.color", pow_sampler t) :: older).
Proof.
  intros Hmiss Hb. eexists. split; [by apply translated_miss|].
  apply branch_of_DiffuseReflection in Hb as (H1 & H2 & H3 & H4).
  unfold GetInputValue, classify. rewrite H1, H2, H3, H4.
  step_classify; simpl; try rewrite B; simpl;
    (split; [reflexivity|]); (split; [reflexivity|]);
    (split; intros ?; try discriminate).
  all: try (eexists _, [_; _], _; reflexivity).
  all: try (eexists _, [_], _; reflexivity).
  all: try (eexists _, [], _; reflexivity).
  all: try (eexists _, [_; _; _], _; reflexivity).
  all: try (eexists _, [_; _; _; _], _; reflexivity).
Qed.

(** C5, as the code has it. In the Refraction+Diffuse+Reflection and
    Reflection-only branches a named specular texture is written to the
    slot [uberv2.reflecton.color]; the slot [uberv2.reflection.color] is
    never written. *)
Theorem specular_texture_misses_reflection_slot io mat bp st :
  m_material_cache st !! name mat = None →
  branch_of mat = RefractionDiffuseReflection ∨ branch_of mat = ReflectionOnly →
  empty (specular_texname mat) = false →
  ∃ m, translated io mat bp st = Some m ∧
    GetInputValue "uberv2.reflection.color" m = None ∧
    ∃ t, GetInputValue "uberv2.reflecton.color" m = Some (pow_sampler t).
Proof.
  intros Hmiss Hb Hs. eexists. split; [by apply translated_miss|].
  unfold GetInputValue, classify.
  destruct Hb as [Hb|Hb].
  - apply branch_of_RefractionDiffuseReflection in Hb as (H1 & H2).
    rewrite H1, H2, Hs. simpl negb. cbv iota.
    step_classify; simpl; try rewrite B; simpl; (split; [reflexivity|]);
      eexists; reflexivity.
  - apply branch_of_ReflectionOnly in Hb as (H1 & H2 & H3).
    rewrite H1, H2, H3, Hs. simpl negb. cbv iota.
    step_classify; simpl; try rewrite B; simpl; (split; [reflexivity|]);
      eexists; reflexivity.
Qed.

(** Without a specular texture the two branches write the flat specular
    colour to [uberv2.reflection.color]. *)
Lemma flat_specular_reflection_slot io mat bp st :
  m_material_cache st !! name mat = None →
  branch_of mat = RefractionDiffuseReflection ∨ branch_of mat = ReflectionOnly →
  empty (specular_texname mat) = true →
  ∃ m, translated io mat bp st = Some m ∧
    GetInputValue "uberv2.reflection.color" m
      = Some (InputMap_ConstantFloat3 (to_float3 (specular mat))).
Proof.
  intros Hmiss Hb Hs. eexists. split; [by apply translated_miss|].
  unfold GetInputValue, classify.
  destruct Hb as [Hb|Hb].
  - apply branch_of_RefractionDiffuseReflection in Hb as (H1 & H2).
    rewrite H1, H2, Hs. simpl negb. cbv iota.
    step_classify; simpl; try rewrite B; reflexivity.
  - apply branch_of_ReflectionOnly in Hb as (H1 & H2 & H3).
    rewrite H1, H2, H3, Hs. simpl negb. cbv iota.
    step_classify; simpl; try rewrite B; reflexivity.
Qed.

(** The refraction colour is the flat transmittance colour. *)
Lemma refraction_color_flat io mat bp st :
  m_material_cache st !! name mat = None →
  branch_of mat = RefractionDiffuseReflection →
  ∃ m, translated io mat bp st = Some m ∧
    GetInputValue "uberv2.refraction.color" m
      = Some (InputMap_ConstantFloat3 (to_float3 (transmittance mat))).
Proof.
  intros Hmiss Hb. eexists. split; [by apply translated_miss|].
  unfold GetInputValue, classify.
  apply branch_of_RefractionDiffuseReflection in Hb as (H1 & H2).
  rewrite H1, H2.
  step_classify; simpl; reflexivity.
Qed.


(** ** The mesh splitter *)

#[local] Arguments Nat.div : simpl never.
#[local] Arguments Nat.mul : simpl never.
#[local] Arguments u32 : simpl never.

(** The rule for a counting loop: an invariant that holds at the start and
    is kept by every iteration that is reached holds at the end, and the
    loop ends without fault. *)
Section loops.
Context {S : Type}.
Variable body : nat → S → outcome S.
Variable P : nat → S → Prop.

Lemma for_loop_inv lo count s :
  P lo s →
  (∀ i s, lo ≤ i < lo + count → P i s → ∃ s', body i s = Ok s' ∧ P (Datatypes.S i) s') →
  ∃ s', for_loop body lo count s = Ok s' ∧ P (lo + count) s'.
Proof.
  revert lo s. induction count as [|c IH]; intros lo s H0 Hstep.
  - exists s. rewrite Nat.add_0_r. done.
  - destruct (Hstep lo s) as (s1 & E1 & H1); [lia|done|].
    destruct (IH (Datatypes.S lo) s1) as (s2 & E2 & H2); [done| |].
    + intros i s' Hi. apply Hstep. lia.
    + exists s2. simpl. rewrite E1. simpl. split; [done|].
      by replace (lo + Datatypes.S c) with (Datatypes.S lo + c) by lia.
Qed.
End loops.

Lemma in_range_lt data stride old count k :
  in_range data stride old count = true → k < count →
  N.to_nat (u32 (stride * old + N.of_nat k)) < length data.
Proof.
  unfold in_range. rewrite forallb_forall. intros H Hk.
  apply Nat.ltb_lt, H, in_seq. lia.
Qed.

Lemma push_back_range_ok data stride old count dst :
  in_range data stride old count = true →
  ∃ vs, push_back_range data stride old count dst = Ok (dst ++ vs) ∧ length vs = count.
Proof.
  intros Hr. unfold push_back_range.
  edestruct (for_loop_inv
    (λ k dst0, let* v := at_ data (N.to_nat (u32 (stride * old + N.of_nat k))) in
               Ok (dst0 ++ [v]))
    (λ k s, ∃ vs, s = dst ++ vs ∧ length vs = k) 0 count dst) as (s' & E & vs & -> & L).
  - exists []. by rewrite app_nil_r.
  - intros i s [_ Hi] (vs & -> & L). simpl in Hi.
    pose proof (in_range_lt _ _ _ _ i Hr Hi) as Hlt.
    apply lookup_lt_is_Some in Hlt as [v Hv]. unfold at_. rewrite Hv. simpl.
    eexists. split; [done|]. exists (vs ++ [v]).
    rewrite length_app; simpl. split; [by rewrite app_assoc|lia].
  - exists vs. done.
Qed.

(** Places in a list. *)
Lemma position_Some x l k : position x l = Some k → l !! k = Some x ∧ k < length l.
Proof.
  revert k. induction l as [|y l IH]; intros k; simpl; [done|].
  destruct (N.eqb_spec y x) as [->|Hne].
  - intros [= <-]. split; [done|lia].
  - destruct (position x l) as [k'|]; simpl; [|done].
    intros [= <-]. destruct (IH k' eq_refl). split; [done|lia].
Qed.

Lemma position_None x l : position x l = None ↔ x ∉ l.
Proof.
  induction l as [|y l IH]; simpl.
  - split; [intros _; apply not_elem_of_nil|done].
  - destruct (N.eqb_spec y x) as [->|Hne].
    + split; [done|]. intros H. exfalso. apply H. left.
    + rewrite not_elem_of_cons. destruct (position x l); simpl.
      * split; [done|]. intros [_ H]. by apply IH in H.
      * split; [|done]. intros _. split; [congruence|by apply IH].
Qed.

Lemma position_snoc x l y :
  position x (l ++ [y]) =
    match position x l with
    | Some k => Some k
    | None => if N.eqb y x then Some (length l) else None
    end.
Proof.
  induction l as [|z l IH]; simpl.
  - by destruct (N.eqb y x).
  - destruct (N.eqb z x); [done|]. rewrite IH.
    destruct (position x l); simpl; [done|]. by destruct (N.eqb y x).
Qed.

Lemma first_occurrences_snoc l x :
  first_occurrences (l ++ [x]) =
    if bool_decide (x ∈ first_occurrences l) then first_occurrences l
    else first_occurrences l ++ [x].
Proof. unfold first_occurrences. by rewrite foldl_snoc. Qed.

Lemma first_occurrences_elem l x : x ∈ first_occurrences l ↔ x ∈ l.
Proof.
  induction l as [|y l IH] using rev_ind; [done|].
  rewrite first_occurrences_snoc. case_bool_decide as Hy.
  - rewrite elem_of_app, list_elem_of_singleton, <- IH.
    split; [tauto|]. intros [?| ->]; done.
  - by rewrite !elem_of_app, IH.
Qed.

Lemma first_occurrences_NoDup l : NoDup (first_occurrences l).
Proof.
  induction l as [|y l IH] using rev_ind; [constructor|].
  rewrite first_occurrences_snoc. case_bool_decide as Hy; [done|].
  apply NoDup_app. split; [done|]. split; [|apply NoDup_singleton].
  intros x Hx. rewrite list_elem_of_singleton. by intros ->.
Qed.

Lemma first_occurrences_size l :
  length (first_occurrences l) = size (list_to_set l : gset N).
Proof.
  rewrite <- (size_list_to_set (C := gset N)) by apply first_occurrences_NoDup.
  f_equal. apply set_eq. intros x.
  by rewrite !elem_of_list_to_set, first_occurrences_elem.
Qed.

Lemma first_occurrences_app_length l k :
  length (first_occurrences l) ≤ length (first_occurrences (l ++ k)).
Proof.
  induction k as [|y k IH] using rev_ind; [by rewrite app_nil_r|].
  rewrite app_assoc, first_occurrences_snoc.
  case_bool_decide; [done|]. rewrite length_app. simpl. lia.
Qed.

(** No more distinct numbers below [n] than [n]. *)
Lemma NoDup_bounded_length (l : list N) (n : N) :
  NoDup l → Forall (λ x, (x < n)%N) l → (N.of_nat (length l) ≤ n)%N.
Proof.
  intros Hnd Hb.
  assert (length (N.to_nat <$> l) ≤ length (seq 0 (N.to_nat n))) as H.
  { apply submseteq_length, NoDup_submseteq.
    - apply NoDup_fmap_2; [|done]. intros a b. lia.
    - intros x (y & -> & Hy)%list_elem_of_fmap. apply elem_of_seq.
      rewrite Forall_forall in Hb. specialize (Hb y Hy). lia. }
  rewrite length_fmap, length_seq in H. lia.
Qed.

Lemma compact_known distinct x y :
  x ∈ distinct → compact (distinct ++ [y]) x = compact distinct x.
Proof.
  intros Hx. unfold compact. rewrite position_snoc.
  destruct (position x distinct) eqn:E; [done|].
  by apply position_None in E.
Qed.

Lemma compact_new distinct y :
  y ∉ distinct → compact (distinct ++ [y]) y = N.of_nat (length distinct).
Proof.
  intros Hy. unfold compact. rewrite position_snoc.
  apply position_None in Hy. by rewrite Hy, N.eqb_refl.
Qed.

Lemma compact_lt distinct x :
  x ∈ distinct → (compact distinct x < N.of_nat (length distinct))%N.
Proof.
  intros Hx. unfold compact.
  destruct (position x distinct) as [k|] eqn:E.
  - apply position_Some in E as [_ ?]. simpl. lia.
  - by apply position_None in E.
Qed.

Lemma vertex_ok_inv m old :
  vertex_ok m old = true →
  (old < 2 ^ 32)%N ∧
  in_range (tinyobj.positions m) 3 old 3 = true ∧
  in_range (tinyobj.normals m) 3 old 3 = true ∧
  (tinyobj.texcoords m ≠ [] → in_range (tinyobj.texcoords m) 2 old 2 = true).
Proof.
  unfold vertex_ok. rewrite !andb_true_iff, orb_true_iff, N.ltb_lt.
  intros [[[? ?] ?] Ht]. repeat split; try done.
  intros Hne. destruct Ht as [Ht|Ht]; [|done].
  by apply bool_decide_eq_true in Ht.
Qed.

Lemma visit_vertex_inv m seen old b :
  split_inv m seen b →
  Forall (λ x, (x < 2 ^ 32)%N) seen →
  vertex_ok m old = true →
  ∃ b', visit_vertex m old b = Ok b' ∧ split_inv m (seen ++ [old]) b'.
Proof.
  intros (Hmap & Hidx & Hv & Hn & Ht) Hseen Hok.
  apply vertex_ok_inv in Hok as (Hold & Hp & Hnr & Htr).
  unfold visit_vertex, split_inv. rewrite first_occurrences_snoc.
  set (distinct := first_occurrences seen) in *.
  rewrite (Hmap old).
  destruct (position old distinct) as [k|] eqn:Hpos; simpl.
  - (* a reference seen before *)
    assert (old ∈ distinct) as Hin.
    { apply position_Some in Hpos as [Hl _]. by eapply list_elem_of_lookup_2. }
    rewrite (bool_decide_eq_true_2 (old ∈ distinct)) by done.
    eexists. split; [done|]. simpl. repeat split; try done.
    rewrite map_app, Hidx. simpl. do 2 f_equal. unfold compact. by rewrite Hpos.
  - (* a new reference *)
    assert (old ∉ distinct) as Hnin by by apply position_None.
    rewrite (bool_decide_eq_false_2 (old ∈ distinct)) by done.
    assert (N.of_nat (length (distinct ++ [old])) ≤ 2 ^ 32)%N as Hbound.
    { apply NoDup_bounded_length.
      - apply NoDup_app. split; [apply first_occurrences_NoDup|].
        split; [|apply NoDup_singleton].
        intros x Hx. rewrite list_elem_of_singleton. by intros ->.
      - apply Forall_app. split; [|by constructor].
        apply Forall_forall. intros x Hx. rewrite Forall_forall in Hseen.
        by apply Hseen, first_occurrences_elem. }
    rewrite length_app in Hbound. simpl in Hbound.
    assert (u32 (N.of_nat (length (vertices b) / 3)) = N.of_nat (length distinct)) as Hnew.
    { rewrite Hv, Nat.mul_comm, Nat.div_mul by done.
      unfold u32. apply N.mod_small. lia. }
    rewrite Hnew.
    destruct (push_back_range_ok _ _ _ _ (vertices b) Hp) as (vs & -> & Lvs).
    destruct (push_back_range_ok _ _ _ _ (normals b) Hnr) as (ns & -> & Lns).
    simpl.
    assert (∃ ts,
      (if negb (bool_decide (tinyobj.texcoords m = []))
       then push_back_range (tinyobj.texcoords m) 2 old 2 (texcoords b)
       else Ok (texcoords b)) = Ok ts ∧
      (if bool_decide (tinyobj.texcoords m = []) then ts = []
       else length ts = 2 * length (distinct ++ [old]))) as (ts & -> & Lts).
    { case_bool_decide as Hte; simpl.
      - by exists (texcoords b).
      - destruct (push_back_range_ok _ _ _ _ (texcoords b) (Htr Hte)) as (ts & -> & L).
        eexists. split; [done|]. rewrite !length_app, L, Ht. simpl. lia. }
    simpl. eexists. split; [done|]. simpl. repeat split.
    + intros x. rewrite position_snoc. destruct (N.eqb_spec old x) as [->|Hne].
      * rewrite lookup_insert_eq. apply position_None in Hnin. by rewrite Hnin.
      * rewrite lookup_insert_ne by done. rewrite Hmap.
        by destruct (position x distinct).
    + rewrite map_app, Hidx. simpl. rewrite compact_new by done. f_equal.
      apply map_ext_in. intros x Hx. symmetry. apply compact_known.
      by apply first_occurrences_elem, list_elem_of_In.
    + rewrite !length_app, Lvs, Hv. simpl. lia.
    + rewrite !length_app, Lns, Hn. simpl. lia.
    + done.
Qed.

Lemma face_indices_lookup m i j :
  j < 3 → face_indices m i !! j = tinyobj.indices m !! (3 * i + j).
Proof.
  intros Hj. unfold face_indices. rewrite lookup_take_lt by done. apply lookup_drop.
Qed.

Lemma face_indices_length m i :
  3 * i + 3 ≤ length (tinyobj.indices m) → length (face_indices m i) = 3.
Proof. intros H. unfold face_indices. rewrite length_take, length_drop. lia. Qed.

Lemma visit_face_inv m used i seen b :
  split_inv m seen b →
  Forall (λ x, (x < 2 ^ 32)%N) seen →
  i < length (tinyobj.material_ids m) →
  negb (uses m used i) || face_ok m i = true →
  let seen' := seen ++ (if uses m used i then face_indices m i else []) in
  ∃ b', visit_face m used i b = Ok b' ∧ split_inv m seen' b' ∧
        Forall (λ x, (x < 2 ^ 32)%N) seen'.
Proof.
  intros Hinv Hseen Hi Hok. unfold visit_face, uses in *.
  apply lookup_lt_is_Some in Hi as [id Hid]. unfold at_ at 1. rewrite Hid in *.
  cbn [bind]. destruct (Z.eqb id used); cbn [negb] in *.
  2:{ exists b. by rewrite app_nil_r. }
  rewrite orb_false_l in Hok. unfold face_ok in Hok.
  apply andb_true_iff in Hok as [[Hnum Hlen]%andb_true_iff Hvs].
  apply bool_decide_eq_true in Hnum. apply Nat.leb_le in Hlen.
  rewrite forallb_forall in Hvs.
  unfold at_ at 1. rewrite Hnum. cbn [bind]. rewrite N.eqb_refl. cbn [negb].
  change (N.to_nat 3) with 3.
  pose proof (face_indices_length m i Hlen) as Hfl.
  edestruct (for_loop_inv
    (λ j b0, let* old_index := at_ (tinyobj.indices m) (3 * i + j) in
             visit_vertex m old_index b0)
    (λ j b0, split_inv m (seen ++ take j (face_indices m i)) b0 ∧
             Forall (λ x, (x < 2 ^ 32)%N) (seen ++ take j (face_indices m i)))
    0 3 b) as (b' & E & Hinv' & Hseen').
  - rewrite take_0, app_nil_r. done.
  - intros j b0 [_ Hj] [Hinv0 Hseen0]. simpl in Hj.
    destruct (lookup_lt_is_Some_2 (face_indices m i) j) as [old Hold]; [lia|].
    pose proof Hold as Hold'. rewrite face_indices_lookup in Hold' by done.
    unfold at_. rewrite Hold'. cbn [bind].
    assert (vertex_ok m old = true) as Hvo.
    { apply Hvs. apply list_elem_of_In. by eapply list_elem_of_lookup_2. }
    destruct (visit_vertex_inv m _ old b0 Hinv0 Hseen0 Hvo) as (b1 & E1 & Hinv1).
    exists b1. split; [done|].
    rewrite (take_S_r _ _ old) by done. rewrite app_assoc. split; [done|].
    apply Forall_app. split; [done|]. constructor; [|done].
    by apply vertex_ok_inv in Hvo as [? _].
  - exists b'. split; [exact E|].
    rewrite take_ge in Hinv', Hseen' by lia. done.
Qed.

(** The references of the faces before face [i]. *)
Lemma face_refs_upto m used i :
  flat_map (λ i, if uses m used i then face_indices m i else []) (seq 0 (Datatypes.S i))
  = flat_map (λ i, if uses m used i then face_indices m i else []) (seq 0 i)
    ++ (if uses m used i then face_indices m i else []).
Proof. rewrite seq_S, flat_map_app. simpl. by rewrite app_nil_r. Qed.

Lemma shape_ok_face m used i :
  shape_ok m used = true → i < length (tinyobj.material_ids m) →
  negb (uses m used i) || face_ok m i = true.
Proof.
  unfold shape_ok. rewrite forallb_forall. intros H Hi. apply H, in_seq. lia.
Qed.

Lemma split_inv_init m : split_inv m [] no_buffers.
Proof.
  unfold split_inv. simpl. repeat split; try done.
  by case_bool_decide.
Qed.

Lemma split_ok m used :
  shape_ok m used = true →
  ∃ b, split m used = Ok b ∧ split_inv m (face_refs m used) b ∧
       Forall (λ x, (x < 2 ^ 32)%N) (face_refs m used).
Proof.
  intros Hok. unfold split, face_refs.
  edestruct (for_loop_inv (visit_face m used)
    (λ i b,
       split_inv m
         (flat_map (λ i, if uses m used i then face_indices m i else []) (seq 0 i)) b ∧
       Forall (λ x, (x < 2 ^ 32)%N)
         (flat_map (λ i, if uses m used i then face_indices m i else []) (seq 0 i)))
    0 (length (tinyobj.material_ids m)) no_buffers) as (b & E & H).
  - split; [apply split_inv_init|constructor].
  - intros i b [_ Hi] [Hinv Hseen]. simpl in Hi.
    destruct (visit_face_inv m used i _ b Hinv Hseen Hi) as (b' & E & H').
    { by apply shape_ok_face. }
    exists b'. split; [done|]. by rewrite face_refs_upto.
  - exists b. done.
Qed.

Lemma pack3_length n data : 3 * n ≤ length data → length (pack3 n data) = n.
Proof.
  revert data. induction n as [|n IH]; intros data H; [by destruct data|].
  destruct data as [|a [|b [|c data]]]; simpl in H; try lia.
  simpl. rewrite IH; [done|]. lia.
Qed.

Lemma make_mesh_vertices m seen b :
  split_inv m seen b →
  length (mesh_vertices (make_mesh b)) = length (first_occurrences seen).
Proof.
  intros (_ & _ & Hv & _). unfold make_mesh. cbn [mesh_vertices].
  rewrite Hv, Nat.mul_comm, Nat.div_mul by done.
  apply pack3_length. lia.
Qed.

Lemma face_refs_length m used :
  shape_ok m used = true →
  length (face_refs m used)
  = 3 * length (List.filter (uses m used) (seq 0 (length (tinyobj.material_ids m)))).
Proof.
  intros Hok. unfold face_refs.
  assert (∀ i, In i (seq 0 (length (tinyobj.material_ids m))) →
               negb (uses m used i) || face_ok m i = true) as H.
  { intros i Hi%in_seq. apply shape_ok_face; [done|lia]. }
  induction (seq 0 (length (tinyobj.material_ids m))) as [|i l IH]; [done|].
  cbn [flat_map List.filter]. rewrite length_app, IH by (intros; apply H; by right).
  specialize (H i (or_introl eq_refl)).
  destruct (uses m used i); cbn [negb orb] in H; [|simpl; lia].
  unfold face_ok in H. apply andb_true_iff in H as [[_ Hl%Nat.leb_le]%andb_true_iff _].
  rewrite face_indices_length by done. simpl. lia.
Qed.

Lemma filter_all {A} (f : A → bool) (l : list A) :
  (∀ x, In x l → f x = true) → List.filter f l = l.
Proof.
  induction l as [|x l IH]; intros H; [done|]. simpl.
  rewrite (H x) by by left. f_equal. apply IH. intros; apply H; by right.
Qed.

(** C2. The split mesh has as many vertices as there are distinct original
    indices among the references of the faces that use the material id,
    whatever the attribute values are, and the new index of a reference is
    its place among the distinct references in order of first
    occurrence. *)
Theorem split_counts_distinct_indices m used_material :
  shape_ok m used_material = true →
  ∃ b, split m used_material = Ok b ∧
    let mesh := make_mesh b in
    let refs := face_refs m used_material in
    length (mesh_vertices mesh) = size (list_to_set refs : gset N) ∧
    length (mesh_vertices mesh) = length (first_occurrences refs) ∧
    mesh_indices mesh = map (compact (first_occurrences refs)) refs ∧
    ∀ old_index,
      used_indices b !! old_index
      = N.of_nat <$> position old_index (first_occurrences refs).
Proof.
  intros Hok. destruct (split_ok m used_material Hok) as (b & E & Hinv & _).
  exists b. split; [done|]. cbn zeta.
  pose proof (make_mesh_vertices _ _ _ Hinv) as Hlen.
  destruct Hinv as (Hmap & Hidx & _).
  repeat split; try done.
  by rewrite Hlen, first_occurrences_size.
Qed.

(** C3. When all faces are triangles of one material id, the index buffer
    of the mesh split by that id has three entries per face and every entry
    is below the vertex count of the mesh. *)
Theorem single_material_index_buffer m id :
  shape_ok m id = true →
  Forall (λ x, x = id) (tinyobj.material_ids m) →
  ∃ b, split m id = Ok b ∧
    let mesh := make_mesh b in
    length (mesh_indices mesh) = 3 * length (tinyobj.material_ids m) ∧
    Forall (λ i, (i < N.of_nat (length (mesh_vertices mesh)))%N) (mesh_indices mesh).
Proof.
  intros Hok Hall. destruct (split_ok m id Hok) as (b & E & Hinv & _).
  exists b. split; [done|]. cbn zeta.
  pose proof (make_mesh_vertices _ _ _ Hinv) as Hlen.
  destruct Hinv as (_ & Hidx & _). rewrite Hlen. cbn [make_mesh mesh_indices].
  rewrite Hidx. split.
  - rewrite length_map, face_refs_length by done. f_equal.
    rewrite filter_all; [by rewrite length_seq|].
    intros i Hi%in_seq. unfold uses.
    destruct (tinyobj.material_ids m !! i) as [x|] eqn:Hx.
    + rewrite Forall_forall in Hall. rewrite (Hall x); [apply Z.eqb_refl|].
      by eapply list_elem_of_lookup_2.
    + apply lookup_ge_None in Hx. lia.
  - apply Forall_forall. intros i Hi. apply list_elem_of_In, in_map_iff in Hi.
    destruct Hi as (x & <- & Hx). apply compact_lt, first_occurrences_elem.
    by apply list_elem_of_In.
Qed.

(** C8. When the shape has no texture coordinates, the UV buffer of a
    split mesh is one (0,0) per vertex, and it is not empty when the
    material id is one the shape uses. *)
Theorem uv_zero_fill m used_material :
  tinyobj.texcoords m = [] →
  shape_ok m used_material = true →
  ∃ b, split m used_material = Ok b ∧
    let mesh := make_mesh b in
    mesh_uvs mesh
      = replicate (length (mesh_vertices mesh)) (mk_float2 Float.zero Float.zero) ∧
    length (mesh_uvs mesh) = length (mesh_vertices mesh) ∧
    (used_material ∈ tinyobj.material_ids m → mesh_uvs mesh ≠ []).
Proof.
  intros Hempty Hok. destruct (split_ok m used_material Hok) as (b & E & Hinv & _).
  exists b. split; [done|]. cbn zeta.
  pose proof (make_mesh_vertices _ _ _ Hinv) as Hlen.
  pose proof (face_refs_length m used_material Hok) as Hrefs.
  destruct Hinv as (_ & _ & Hv & _ & Ht).
  rewrite bool_decide_eq_true_2 in Ht by done.
  assert (mesh_uvs (make_mesh b)
          = replicate (length (mesh_vertices (make_mesh b)))
                      (mk_float2 Float.zero Float.zero)) as Huv.
  { rewrite Hlen. unfold make_mesh. cbn [mesh_uvs]. rewrite Ht. simpl.
    by rewrite Hv, Nat.mul_comm, Nat.div_mul. }
  split; [done|]. split; [by rewrite Huv, length_replicate|].
  intros Hused. rewrite Huv, Hlen.
  apply list_elem_of_lookup in Hused as [i Hi].
  assert (In i (List.filter (uses m used_material)
                            (seq 0 (length (tinyobj.material_ids m))))) as Hin.
  { apply filter_In. split.
    - apply in_seq. apply lookup_lt_Some in Hi. lia.
    - unfold uses. rewrite Hi. apply Z.eqb_refl. }
  destruct (List.filter _ _) as [|j l]; [done|]. simpl in Hrefs.
  destruct (face_refs m used_material) as [|x refs] eqn:Er; [simpl in Hrefs; lia|].
  assert (x ∈ first_occurrences (x :: refs)) as Hx.
  { apply first_occurrences_elem. left. }
  destruct (first_occurrences (x :: refs)); [by apply elem_of_nil in Hx|done].
Qed.

Lemma attach_area_lights_spec mesh_ptr mesh scene :
  m_shapes (attach_area_lights mesh_ptr mesh scene) = m_shapes scene ∧
  m_lights (attach_area_lights mesh_ptr mesh scene)
  = m_lights scene ++ map (AreaLight mesh_ptr) (seq 0 (GetNumIndices mesh / 3)).
Proof.
  unfold attach_area_lights.
  generalize (seq 0 (GetNumIndices mesh / 3)) as ls. intros ls. revert scene.
  induction ls as [|l ls IH]; intros scene.
  - simpl. by rewrite app_nil_r.
  - cbn [foldl map]. destruct (IH (AttachLight (AreaLight mesh_ptr l) scene)) as [-> ->].
    simpl. by rewrite <- app_assoc.
Qed.

(** C7. Attaching the sub-mesh of a material id creates one mesh and
    attaches it; its index buffer has length 3K, and the lights attached
    are K area lights on that mesh, for the triangles 0 to K-1 in order,
    when its material is in the emissive set, and none when its material is
    not emissive or when it has no material. *)
Theorem area_lights_per_triangle materials emissives shape used_material scene st :
  shape_ok (tinyobj.mesh shape) used_material = true →
  ((0 ≤ used_material)%Z → Z.to_nat used_material < length materials) →
  ∃ scene' st' mesh K,
    attach_submesh materials emissives shape used_material (scene, st)
      = Ok (scene', st') ∧
    mesh_store st' = mesh_store st ++ [mesh] ∧
    m_shapes scene' = m_shapes scene ++ [length (mesh_store st)] ∧
    mesh_material mesh
      = (if Z.leb 0 used_material then materials !! Z.to_nat used_material else None) ∧
    length (mesh_indices mesh) = 3 * K ∧
    m_lights scene' = m_lights scene ++
      match mesh_material mesh with
      | Some material =>
          if bool_decide (material ∈ emissives)
          then map (AreaLight (length (mesh_store st))) (seq 0 K)
          else []
      | None => []
      end.
Proof.
  intros Hok Hmat.
  destruct (split_ok _ _ Hok) as (b & E & Hinv & _).
  pose proof (face_refs_length _ _ Hok) as Hrefs.
  set (K := length (List.filter (uses (tinyobj.mesh shape) used_material)
                      (seq 0 (length (tinyobj.material_ids (tinyobj.mesh shape)))))) in *.
  assert (length (indices b) = 3 * K) as Hlen.
  { destruct Hinv as (_ & -> & _). by rewrite length_map. }
  unfold attach_submesh. rewrite E. cbn [bind].
  destruct (Z.leb_spec 0 used_material) as [Hge|Hlt].
  - destruct (lookup_lt_is_Some_2 materials (Z.to_nat used_material) (Hmat Hge))
      as [material Hm].
    unfold at_. rewrite Hm. cbn [bind new_mesh].
    destruct (attach_area_lights_spec (length (mesh_store st))
                (SetMaterial material (make_mesh b))
                (AttachShape (length (mesh_store st)) scene)) as [Hs Hl].
    unfold GetNumIndices in Hl. cbn [SetMaterial make_mesh mesh_indices] in Hl.
    rewrite Hlen, Nat.mul_comm, Nat.div_mul in Hl by done.
    case_bool_decide as Hem.
    + eexists _, _, (SetMaterial material (make_mesh b)), K.
      split; [reflexivity|]. cbn [mesh_store mesh_material SetMaterial mesh_indices make_mesh].
      rewrite Hs, Hl. rewrite bool_decide_eq_true_2 by done. done.
    + eexists _, _, (SetMaterial material (make_mesh b)), K.
      split; [reflexivity|]. cbn [mesh_store mesh_material SetMaterial mesh_indices make_mesh].
      rewrite bool_decide_eq_false_2 by done. simpl. by rewrite app_nil_r.
  - cbn [bind new_mesh].
    eexists _, _, (make_mesh b), K.
    split; [reflexivity|]. simpl. by rewrite app_nil_r.
Qed.

Lemma no_throw_bind {A B} (m : outcome A) (k : A → outcome B) :
  no_throw m → (∀ a, no_throw (k a)) → no_throw (bind m k).
Proof.
  intros Hm Hk e. destruct m as [a|e'|f]; simpl; [apply Hk| |done].
  by destruct (Hm e').
Qed.

Lemma no_throw_at {A} (v : list A) i : no_throw (at_ v i).
Proof. intros e. unfold at_. by destruct (v !! i). Qed.

Lemma no_throw_Ok {A} (a : A) : no_throw (Ok a).
Proof. by intros e. Qed.

Lemma no_throw_for_loop {S} (body : nat → S → outcome S) lo count s :
  (∀ i s, no_throw (body i s)) → no_throw (for_loop body lo count s).
Proof.
  intros Hb. revert lo s. induction count as [|c IH]; intros lo s.
  - apply no_throw_Ok.
  - simpl. apply no_throw_bind; [apply Hb|]. intros s'. apply IH.
Qed.

Lemma no_throw_split m used : no_throw (split m used).
Proof.
  apply no_throw_for_loop. intros i b. unfold visit_face.
  apply no_throw_bind; [apply no_throw_at|]. intros id.
  destruct (negb (Z.eqb id used)); [apply no_throw_Ok|].
  apply no_throw_bind; [apply no_throw_at|]. intros n.
  destruct (negb (N.eqb n 3)); [done|].
  apply no_throw_for_loop. intros j b'.
  apply no_throw_bind; [apply no_throw_at|]. intros old.
  unfold visit_vertex. destruct (used_indices b' !! old); [apply no_throw_Ok|].
  assert (∀ src stride count dst, no_throw (push_back_range src stride old count dst)) as Hp.
  { intros. apply no_throw_for_loop. intros k d.
    apply no_throw_bind; [apply no_throw_at|]. intros v. apply no_throw_Ok. }
  apply no_throw_bind; [apply Hp|]. intros vs.
  apply no_throw_bind; [apply Hp|]. intros ns.
  apply no_throw_bind; [|intros; apply no_throw_Ok].
  destruct (negb _); [apply Hp|apply no_throw_Ok].
Qed.

Lemma no_throw_attach_submesh materials emissives shape used sc :
  no_throw (attach_submesh materials emissives shape used sc).
Proof.
  unfold attach_submesh. destruct sc as [scene st].
  apply no_throw_bind; [apply no_throw_split|]. intros b.
  apply no_throw_bind.
  { destruct (Z.leb 0 used); [|apply no_throw_Ok].
    apply no_throw_bind; [apply no_throw_at|]. intros; apply no_throw_Ok. }
  intros mesh. cbn [new_mesh].
  apply no_throw_bind; [|intros; apply no_throw_Ok].
  destruct (Z.leb 0 used); [|apply no_throw_Ok].
  apply no_throw_bind; [apply no_throw_at|]. intros; apply no_throw_Ok.
Qed.

Lemma no_throw_attach_shapes materials emissives objshapes sc :
  no_throw (attach_shapes materials emissives objshapes sc).
Proof.
  revert sc. induction objshapes as [|shape rest IH]; intros sc; [apply no_throw_Ok|].
  simpl. apply no_throw_bind; [|intros; apply IH].
  generalize (std_set (tinyobj.material_ids (tinyobj.mesh shape))) as ids.
  intros ids. revert sc. induction ids as [|id ids IHi]; intros sc; [apply no_throw_Ok|].
  simpl. apply no_throw_bind; [apply no_throw_attach_submesh|]. intros; apply IHi.
Qed.

Lemma no_throw_translate_materials io objmaterials bp materials emissives st :
  no_throw (translate_materials io objmaterials bp materials emissives st).1.
Proof.
  revert materials emissives st.
  induction objmaterials as [|mat rest IH]; intros materials emissives st.
  - apply no_throw_Ok.
  - simpl. destruct (TranslateMaterial io mat bp st) as [r st1].
    destruct (material_store st1 !! r); [apply IH|done].
Qed.

Lemma LoadScene_throws io parsed filename bp st e :
  (LoadScene io parsed filename bp st).1 = Throw e →
  (∃ err, parsed = inl err ∧ e = runtime_error err) ∨
  LoadImage io "../Resources/Textures/studio015.hdr" = inl e.
Proof.
  unfold LoadScene. destruct parsed as [err|[objshapes objmaterials]].
  - simpl. intros [= <-]. left. by exists err.
  - pose proof (no_throw_translate_materials io objmaterials bp [] ∅
      (LogInfo ("Success" +:+ LF)
         (LogInfo ("Loading a scene from OBJ: " +:+ filename +:+ " ... ") st))) as Ht.
    destruct (translate_materials _ _ _ _ _ _) as [[[materials emissives]|e'|f] st1];
      simpl in Ht; [|by destruct (Ht e')|done].
    pose proof (no_throw_attach_shapes materials emissives objshapes
                  (Scene1_Create, st1)) as Ha.
    destruct (attach_shapes _ _ _ _) as [[scene st2]|e'|f];
      [|by destruct (Ha e')|done].
    destruct (LoadImage io "../Resources/Textures/studio015.hdr") as [e'|t] eqn:El.
    + simpl. intros [= <-]. by right.
    + done.
Qed.

(** ** The loader only grows *)

Lemma extends_refl st : extends st st.
Proof. unfold extends. repeat split; done. Qed.

Lemma extends_trans st1 st2 st3 : extends st1 st2 → extends st2 st3 → extends st1 st3.
Proof.
  intros (A1 & A2 & A3 & A4 & A5 & A6) (B1 & B2 & B3 & B4 & B5 & B6).
  unfold extends. repeat split; etrans; done.
Qed.

Lemma LoadTexture_extends io bp n st : extends st (LoadTexture io bp n st).2.
Proof.
  unfold LoadTexture. destruct (m_texture_cache st !! n) eqn:H; [apply extends_refl|].
  destruct (LoadImage io (bp +:+ n)); unfold extends; simpl.
  - repeat split; try done. rewrite <- app_assoc. by apply prefix_app_r.
  - repeat split; try done; try by apply prefix_app_r.
    by apply insert_subseteq.
Qed.

(** Whatever holds of the loader before the classification and is kept by
    every texture request holds after it. *)
Lemma classify_ind (P : Loader → Prop) io mat bp st :
  P st → (∀ s n, P s → P (LoadTexture io bp n s).2) → P (classify io mat bp st).2.
Proof.
  intros H0 Hstep.
  assert (∀ m l s, P s → P (set_bump io mat bp (m, l) s).2) as Hbump.
  { intros m l s Hs. unfold set_bump. destruct (negb (empty (bump_texname mat))); [|done].
    specialize (Hstep s (bump_texname mat) Hs).
    by destruct (LoadTexture io bp (bump_texname mat) s). }
  unfold classify.
  repeat match goal with
  | |- context [if ?c then _ else _] => destruct c
  | |- context [LoadTexture ?io ?bp ?n ?s] =>
      let H := fresh "H" in
      assert (P (LoadTexture io bp n s).2) as H by (apply Hstep; assumption);
      destruct (LoadTexture io bp n s) as [? ?]; simpl in H
  | |- context [set_bump ?io ?mat ?bp (?m, ?l) ?s] =>
      let H := fresh "H" in
      assert (P (set_bump io mat bp (m, l) s).2) as H by (apply Hbump; assumption);
      destruct (set_bump io mat bp (m, l) s) as [[? ?] ?]; simpl in H
  end; simpl; assumption.
Qed.

Lemma classify_extends io mat bp st : extends st (classify io mat bp st).2.
Proof.
  apply (classify_ind (extends st)); [apply extends_refl|].
  intros s n Hs. eapply extends_trans; [done|apply LoadTexture_extends].
Qed.

Lemma TranslateMaterial_extends io mat bp st :
  extends st (TranslateMaterial io mat bp st).2.
Proof.
  destruct (m_material_cache st !! name mat) as [r|] eqn:H.
  - rewrite (TranslateMaterial_hit _ _ _ _ r) by done. apply extends_refl.
  - rewrite TranslateMaterial_miss by done.
    pose proof (classify_frame io mat bp st) as (F1 & F2 & F3).
    eapply extends_trans; [apply (classify_extends io mat bp)|].
    unfold extends. simpl. rewrite F1, H.
    repeat split; try done; [by apply prefix_app_r|].
    rewrite <- F1. apply insert_subseteq. by rewrite F1.
Qed.

Lemma translate_all_extends requests st : extends st (translate_all requests st).
Proof.
  revert st. induction requests as [|q requests IH]; intros st; [apply extends_refl|].
  simpl. eapply extends_trans; [apply TranslateMaterial_extends|apply IH].
Qed.

Lemma translate_all_mesh_store requests st :
  mesh_store (translate_all requests st) = mesh_store st.
Proof.
  revert st. induction requests as [|q requests IH]; intros st; [done|].
  simpl. rewrite IH.
  destruct (m_material_cache st !! name q.1.2) as [r|] eqn:H.
  - by rewrite (TranslateMaterial_hit _ _ _ _ r).
  - rewrite TranslateMaterial_miss by done. simpl.
    by destruct (classify_frame q.1.1 q.1.2 q.2 st) as (_ & _ & ->).
Qed.

(** X1. Objects handed out are never lost or changed by later material
    requests: after any run of requests a texture or material reference
    still leads to the same object, every cache entry is still there, and
    no mesh is created. *)
Theorem references_stay_valid requests st :
  let st' := translate_all requests st in
  (∀ r t, texture_store st !! r = Some t → texture_store st' !! r = Some t) ∧
  (∀ r m, material_store st !! r = Some m → material_store st' !! r = Some m) ∧
  (∀ n r, m_texture_cache st !! n = Some r → m_texture_cache st' !! n = Some r) ∧
  (∀ n r, m_material_cache st !! n = Some r → m_material_cache st' !! n = Some r) ∧
  mesh_store st' = mesh_store st.
Proof.
  intros st'. destruct (translate_all_extends requests st) as (T & M & _ & TC & MC & _).
  fold st' in T, M, TC, MC.
  split; [|split; [|split; [|split]]].
  - intros r t H. by eapply prefix_lookup_Some.
  - intros r m H. by eapply prefix_lookup_Some.
  - intros n r H. by eapply lookup_weaken.
  - intros n r H. by eapply lookup_weaken.
  - apply translate_all_mesh_store.
Qed.

(** ** The caches stay consistent with the stores *)

Lemma empty_loader_ok : texture_cache_ok empty_loader ∧ material_cache_ok empty_loader.
Proof. split; intros n r H; simpl in H; by rewrite lookup_empty in H. Qed.

Lemma LoadTexture_cache_ok io bp n st :
  texture_cache_ok st → texture_cache_ok (LoadTexture io bp n st).2.
Proof.
  intros Hok. unfold LoadTexture.
  destruct (m_texture_cache st !! n) eqn:H; [done|].
  destruct (LoadImage io (bp +:+ n)) as [e|t]; [done|].
  intros k r. simpl. destruct (decide (n = k)) as [->|Hne].
  - rewrite lookup_insert_eq. intros [= <-].
    exists (Texture_SetName k t). split; [by apply list_lookup_middle|done].
  - rewrite lookup_insert_ne by done. intros Hk.
    destruct (Hok k r Hk) as (t' & Ht' & Hn). exists t'. split; [|done].
    by apply lookup_app_l_Some.
Qed.

Lemma LoadTexture_result_named io bp n st r :
  texture_cache_ok st → (LoadTexture io bp n st).1 = Some r →
  ∃ t, texture_store (LoadTexture io bp n st).2 !! r = Some t ∧ texture_name t = n.
Proof.
  intros Hok. unfold LoadTexture.
  destruct (m_texture_cache st !! n) as [r'|] eqn:H.
  - simpl. intros [= <-]. by apply Hok.
  - destruct (LoadImage io (bp +:+ n)) as [e|t]; simpl; [done|].
    intros [= <-]. exists (Texture_SetName n t). split; [by apply list_lookup_middle|done].
Qed.

(** X2. A texture request keeps the texture cache consistent, and a
    non-null result refers to a texture of the store that carries the
    requested name. *)
Theorem loaded_texture_is_named io bp n st :
  texture_cache_ok st →
  texture_cache_ok (LoadTexture io bp n st).2 ∧
  ∀ r, (LoadTexture io bp n st).1 = Some r →
       ∃ t, texture_store (LoadTexture io bp n st).2 !! r = Some t ∧
            texture_name t = n.
Proof.
  intros Hok. split; [by apply LoadTexture_cache_ok|].
  intros r. by apply LoadTexture_result_named.
Qed.

Lemma classify_texture_cache_ok io mat bp st :
  texture_cache_ok st → texture_cache_ok (classify io mat bp st).2.
Proof.
  intros Hok. apply (classify_ind texture_cache_ok); [done|].
  intros s n. apply LoadTexture_cache_ok.
Qed.

Lemma TranslateMaterial_texture_cache_ok io mat bp st :
  texture_cache_ok st → texture_cache_ok (TranslateMaterial io mat bp st).2.
Proof.
  intros Hok. destruct (m_material_cache st !! name mat) as [r|] eqn:H.
  - by rewrite (TranslateMaterial_hit _ _ _ _ r).
  - rewrite TranslateMaterial_miss by done.
    by apply (classify_texture_cache_ok io mat bp) in Hok.
Qed.

Lemma TranslateMaterial_material_cache_ok io mat bp st :
  material_cache_ok st → material_cache_ok (TranslateMaterial io mat bp st).2.
Proof.
  intros Hok. destruct (m_material_cache st !! name mat) as [r|] eqn:H.
  - by rewrite (TranslateMaterial_hit _ _ _ _ r).
  - rewrite TranslateMaterial_miss by done.
    pose proof (classify_frame io mat bp st) as (F1 & F2 & _).
    intros k r. simpl. rewrite F1, F2, H.
    destruct (decide (name mat = k)) as [<-|Hne].
    + rewrite lookup_insert_eq. intros [= <-].
      eexists. split; [by apply list_lookup_middle|done].
    + rewrite lookup_insert_ne by done. intros Hk.
      destruct (Hok k r Hk) as (m & Hm & Hn). exists m. split; [|done].
      by apply lookup_app_l_Some.
Qed.

Lemma TranslateMaterial_result_named io mat bp st :
  material_cache_ok st →
  ∃ m, translated io mat bp st = Some m ∧ material_name m = name mat.
Proof.
  intros Hok. destruct (m_material_cache st !! name mat) as [r|] eqn:H.
  - unfold translated. rewrite (TranslateMaterial_hit _ _ _ _ r) by done.
    by apply Hok.
  - rewrite translated_miss by done. by eexists.
Qed.

(** X3. A material request keeps both caches consistent and always returns
    a reference to a material of the store that carries the name of the
    record, on a hit as on a miss. *)
Theorem translated_material_is_named io mat bp st :
  texture_cache_ok st → material_cache_ok st →
  texture_cache_ok (TranslateMaterial io mat bp st).2 ∧
  material_cache_ok (TranslateMaterial io mat bp st).2 ∧
  ∃ m, translated io mat bp st = Some m ∧ material_name m = name mat.
Proof.
  intros Ht Hm. split; [by apply TranslateMaterial_texture_cache_ok|].
  split; [by apply TranslateMaterial_material_cache_ok|].
  by apply TranslateMaterial_result_named.
Qed.

(** ** The classification, branch by branch *)

Lemma set_bump_value io mat bp m l st :
  empty (bump_texname mat) = false →
  set_bump io mat bp (m, l) st =
    (SetInputValue "uberv2.shading_normal"
       (bump_remap (LoadTexture io bp (bump_texname mat) st).1) m,
     Z.lor l Layers.kShadingNormalLayer,
     (LoadTexture io bp (bump_texname mat) st).2).
Proof.
  intros H. unfold set_bump. rewrite H. simpl.
  by destruct (LoadTexture io bp (bump_texname mat) st).
Qed.

Lemma set_bump_none io mat bp m l st :
  empty (bump_texname mat) = true → set_bump io mat bp (m, l) st = (m, l, st).
Proof. intros H. unfold set_bump. by rewrite H. Qed.


(** Stepping through [classify] with the bump block resolved by the test
    on the bump name. *)
Ltac step_branch :=
  repeat match goal with
  | |- context [negb (empty ?n)] =>
      let E := fresh "E" in destruct (empty n) eqn:E; simpl negb; cbv iota
  | |- context [set_bump ?io ?mat ?bp (?m, ?l) ?s] =>
      first [ rewrite (set_bump_none io mat bp m l s) by assumption
            | rewrite (set_bump_value io mat bp m l s) by assumption
            | let E := fresh "E" in destruct (empty (bump_texname mat)) eqn:E ]
  | |- context [LoadTexture ?io ?bp ?n ?s] =>
      let L := fresh "L" in
      destruct (LoadTexture io bp n s) as [? ?] eqn:L; cbn [fst snd]
  end.

(** Rewriting the tests of [classify] with the tests of a branch. *)
Ltac enter_branch Hb :=
  unfold classify;
  first
    [ apply branch_of_Emission in Hb; rewrite Hb
    | let H1 := fresh in let H2 := fresh in
      apply branch_of_RefractionDiffuseReflection in Hb as (H1 & H2);
      rewrite H1, H2
    | let H1 := fresh in let H2 := fresh in let H3 := fresh in
      apply branch_of_ReflectionOnly in Hb as (H1 & H2 & H3);
      rewrite H1, H2, H3
    | let H1 := fresh in let H2 := fresh in let H3 := fresh in let H4 := fresh in
      apply branch_of_DiffuseReflection in Hb as (H1 & H2 & H3 & H4);
      rewrite H1, H2, H3, H4
    | let H1 := fresh in let H2 := fresh in let H3 := fresh in let H4 := fresh in
      apply branch_of_DiffuseOnly in Hb as (H1 & H2 & H3 & H4);
      rewrite H1, H2, H3, H4 ].




(** X6. The reflection defaults: the branches with a reflection layer set
    the reflection index of refraction to 3, its roughness to 0.01 and its
    metalness to 1; the refraction branch sets the same index and
    roughness for refraction; the emission and diffuse-only branches write
    none of these slots. *)
Theorem reflection_defaults io mat bp st :
  m_material_cache st !! name mat = None →
  ∃ m, translated io mat bp st = Some m ∧
    let three := Some (InputMap_ConstantFloat (Float.lit 3 1)) in
    let hundredth := Some (InputMap_ConstantFloat (Float.lit 1 100)) in
    let one := Some (InputMap_ConstantFloat (Float.lit 1 1)) in
    match branch_of mat with
    | RefractionDiffuseReflection =>
        GetInputValue "uberv2.reflection.ior" m = three ∧
        GetInputValue "uberv2.reflection.roughness" m = hundredth ∧
        GetInputValue "uberv2.reflection.metalness" m = one ∧
        GetInputValue "uberv2.refraction.ior" m = three ∧
        GetInputValue "uberv2.refraction.roughness" m = hundredth
    | ReflectionOnly | DiffuseReflection =>
        GetInputValue "uberv2.reflection.ior" m = three ∧
        GetInputValue "uberv2.reflection.roughness" m = hundredth ∧
        GetInputValue "uberv2.reflection.metalness" m = one ∧
        GetInputValue "uberv2.refraction.ior" m = None ∧
        GetInputValue "uberv2.refraction.roughness" m = None
    | Emission | DiffuseOnly =>
        GetInputValue "uberv2.reflection.ior" m = None ∧
        GetInputValue "uberv2.reflection.roughness" m = None ∧
        GetInputValue "uberv2.reflection.metalness" m = None ∧
        GetInputValue "uberv2.refraction.ior" m = None ∧
        GetInputValue "uberv2.refraction.roughness" m = None
    end.
Proof.
  intros Hmiss. eexists. split; [by apply translated_miss|]. cbv zeta.
  unfold GetInputValue. cbn [SetName inputs].
  destruct (branch_of mat) eqn:Hb; enter_branch Hb; step_branch;
    repeat split; reflexivity.
Qed.




(** X8. Where the albedo comes from: with a diffuse texture named, the
    emission branch puts the power node over the sampler of the requested
    texture in the emission colour, the refraction and diffuse-only
    branches put it in the diffuse colour; without a name the slot holds
    the flat emission, respectively diffuse, colour. The request is the
    first of the translation, made on the loader as it was found. The
    reflection-only branch never writes the diffuse colour, and only the
    emission branch writes the emission colour. *)
Theorem albedo_source io mat bp st :
  m_material_cache st !! name mat = None →
  ∃ m, translated io mat bp st = Some m ∧
    let sampled :=
      pow_sampler (LoadTexture io bp (diffuse_texname mat) st).1 in
    let textured := negb (empty (diffuse_texname mat)) in
    match branch_of mat with
    | Emission =>
        GetInputValue "uberv2.emission.color" m
          = Some (if textured then sampled
                  else InputMap_ConstantFloat3 (to_float3 (emission mat))) ∧
        GetInputValue "uberv2.diffuse.color" m = None
    | RefractionDiffuseReflection | DiffuseOnly =>
        GetInputValue "uberv2.diffuse.color" m
          = Some (if textured then sampled
                  else InputMap_ConstantFloat3 (to_float3 (diffuse mat))) ∧
        GetInputValue "uberv2.emission.color" m = None
    | DiffuseReflection =>
        GetInputValue "uberv2.diffuse.color" m
          = Some (InputMap_ConstantFloat3 (to_float3 (diffuse mat))) ∧
        GetInputValue "uberv2.emission.color" m = None
    | ReflectionOnly =>
        GetInputValue "uberv2.diffuse.color" m = None ∧
        GetInputValue "uberv2.emission.color" m = None
    end.
Proof.
  intros Hmiss. eexists. split; [by apply translated_miss|]. cbv zeta.
  unfold GetInputValue. cbn [SetName inputs].
  destruct (branch_of mat) eqn:Hb; enter_branch Hb;
    destruct (empty (diffuse_texname mat)) eqn:Ed; simpl negb; cbv iota;
    try (destruct (LoadTexture io bp (diffuse_texname mat) st) as [p s1] eqn:Ld;
         cbn [fst snd]);
    step_branch; split; reflexivity.
Qed.

(** X9. An emissive record requests no texture but its diffuse one: its
    specular and bump texture names are never looked up, decoded or
    logged. *)
Theorem emission_requests_diffuse_texture_only io mat bp st :
  m_material_cache st !! name mat = None →
  branch_of mat = Emission →
  let st' := (TranslateMaterial io mat bp st).2 in
  let s := if empty (diffuse_texname mat) then st
           else (LoadTexture io bp (diffuse_texname mat) st).2 in
  m_texture_cache st' = m_texture_cache s ∧
  texture_store st' = texture_store s ∧
  log st' = log s.
Proof.
  intros Hmiss Hb. cbv zeta. rewrite TranslateMaterial_miss by done.
  cbn [new_material cache_material snd m_texture_cache texture_store log].
  enter_branch Hb.
  destruct (empty (diffuse_texname mat)); simpl negb; cbv iota; [done|].
  by destruct (LoadTexture io bp (diffuse_texname mat) st).
Qed.

(** X10. A record that names no texture is translated without any request:
    the texture cache, the texture store and the log are left as they
    were, in every branch. *)
Theorem untextured_record_requests_nothing io mat bp st :
  empty (diffuse_texname mat) = true →
  empty (specular_texname mat) = true →
  empty (bump_texname mat) = true →
  let st' := (TranslateMaterial io mat bp st).2 in
  m_texture_cache st' = m_texture_cache st ∧
  texture_store st' = texture_store st ∧
  log st' = log st.
Proof.
  intros Hd Hs Hbump. cbv zeta.
  destruct (m_material_cache st !! name mat) as [r|] eqn:H.
  { by rewrite (TranslateMaterial_hit _ _ _ _ r). }
  rewrite TranslateMaterial_miss by done.
  cbn [new_material cache_material snd m_texture_cache texture_store log].
  unfold classify. rewrite Hd, Hs. simpl negb. rewrite orb_false_r. cbv iota.
  repeat match goal with
  | |- context [set_bump ?io ?mat ?bp (?m, ?l) ?s] =>
      rewrite (set_bump_none io mat bp m l s) by assumption
  | |- context [if ?c then _ else _] => destruct c
  end; done.
Qed.

(** ** The attribute data of a split mesh *)

Lemma gather_S data stride old k :
  gather data stride old (Datatypes.S k)
  = gather data stride old k
    ++ match attribute_at data stride old k with Some v => [v] | None => [] end.
Proof.
  unfold gather. rewrite seq_S, omap_app. simpl.
  by destruct (attribute_at data stride old k).
Qed.

Lemma push_back_range_gather data stride old count dst :
  in_range data stride old count = true →
  push_back_range data stride old count dst = Ok (dst ++ gather data stride old count).
Proof.
  intros Hr. unfold push_back_range.
  edestruct (for_loop_inv
    (λ k dst0, let* v := at_ data (N.to_nat (u32 (stride * old + N.of_nat k))) in
               Ok (dst0 ++ [v]))
    (λ k s, s = dst ++ gather data stride old k) 0 count dst) as (s' & E & ->).
  - by rewrite app_nil_r.
  - intros i s [_ Hi] ->. simpl in Hi.
    pose proof (in_range_lt _ _ _ _ i Hr Hi) as Hlt.
    apply lookup_lt_is_Some in Hlt as [v Hv]. unfold at_. rewrite Hv. simpl.
    eexists. split; [done|]. rewrite gather_S. unfold attribute_at. rewrite Hv.
    by rewrite app_assoc.
  - exact E.
Qed.

Lemma in_range_attribute data stride old count k :
  in_range data stride old count = true → k < count →
  is_Some (attribute_at data stride old k).
Proof. intros Hr Hk. apply lookup_lt_is_Some. by apply in_range_lt with count. Qed.

Lemma gather3 data old :
  in_range data 3 old 3 = true →
  ∃ a b c, gather data 3 old 3 = [a; b; c] ∧ attribute3 data old = Some (mk_float3 a b c).
Proof.
  intros Hr.
  destruct (in_range_attribute _ _ _ _ 0 Hr) as [a Ha]; [lia|].
  destruct (in_range_attribute _ _ _ _ 1 Hr) as [b Hb]; [lia|].
  destruct (in_range_attribute _ _ _ _ 2 Hr) as [c Hc]; [lia|].
  exists a, b, c. unfold attribute3, gather. simpl. by rewrite Ha, Hb, Hc.
Qed.

Lemma gather2 data old :
  in_range data 2 old 2 = true →
  ∃ a b, gather data 2 old 2 = [a; b] ∧ attribute2 data old = Some (mk_float2 a b).
Proof.
  intros Hr.
  destruct (in_range_attribute _ _ _ _ 0 Hr) as [a Ha]; [lia|].
  destruct (in_range_attribute _ _ _ _ 1 Hr) as [b Hb]; [lia|].
  exists a, b. unfold attribute2, gather. simpl. by rewrite Ha, Hb.
Qed.

Lemma pack3_gather data l :
  Forall (λ old, in_range data 3 old 3 = true) l →
  ∀ k, pack3 (length l) (flat_map (λ old, gather data 3 old 3) l) !! k
       = l !! k ≫= attribute3 data.
Proof.
  induction 1 as [|old l Hr _ IH]; intros k; [done|].
  destruct (gather3 data old Hr) as (a & b & c & Hg & Ha).
  cbn [flat_map length]. rewrite Hg. cbn [app pack3].
  destruct k as [|k]; [cbn; by rewrite Ha|]. apply IH.
Qed.

Lemma pack2_gather data l :
  Forall (λ old, in_range data 2 old 2 = true) l →
  ∀ k, pack2 (length l) (flat_map (λ old, gather data 2 old 2) l) !! k
       = l !! k ≫= attribute2 data.
Proof.
  induction 1 as [|old l Hr _ IH]; intros k; [done|].
  destruct (gather2 data old Hr) as (a & b & Hg & Ha).
  cbn [flat_map length]. rewrite Hg. cbn [app pack2].
  destruct k as [|k]; [cbn; by rewrite Ha|]. apply IH.
Qed.

Lemma visit_vertex_data m seen old b b' :
  split_inv m seen b → data_inv m seen b →
  vertex_ok m old = true →
  visit_vertex m old b = Ok b' →
  data_inv m (seen ++ [old]) b'.
Proof.
  intros (Hmap & _) (Dv & Dn & Dt) Hok.
  apply vertex_ok_inv in Hok as (_ & Hp & Hnr & Htr).
  unfold visit_vertex, data_inv. rewrite first_occurrences_snoc.
  set (distinct := first_occurrences seen) in *.
  rewrite (Hmap old).
  destruct (position old distinct) as [k|] eqn:Hpos;
    cbn [fmap option_fmap option_map].
  - assert (old ∈ distinct) as Hin.
    { apply position_Some in Hpos as [Hl _]. by eapply list_elem_of_lookup_2. }
    rewrite (bool_decide_eq_true_2 (old ∈ distinct)) by done.
    by intros [= <-].
  - assert (old ∉ distinct) as Hnin by by apply position_None.
    rewrite (bool_decide_eq_false_2 (old ∈ distinct)) by done.
    rewrite !(push_back_range_gather _ _ _ 3) by done. cbn [bind].
    case_bool_decide as Hte; cbn [negb].
    + cbn [bind]. intros [= <-]. cbn [vertices normals texcoords].
      rewrite !flat_map_app. cbn [flat_map]. rewrite !app_nil_r.
      by rewrite Dv, Dn.
    + rewrite (push_back_range_gather _ _ _ 2) by by apply Htr.
      cbn [bind]. intros [= <-]. cbn [vertices normals texcoords].
      rewrite !flat_map_app. cbn [flat_map]. rewrite !app_nil_r.
      by rewrite Dv, Dn, Dt.
Qed.

(** The rule for what a counting loop establishes when it ends without
    fault. *)
Lemma for_loop_post {S} (body : nat → S → outcome S) (Q : nat → S → Prop) lo count s s' :
  Q lo s →
  (∀ i s s', lo ≤ i < lo + count → Q i s → body i s = Ok s' → Q (Datatypes.S i) s') →
  for_loop body lo count s = Ok s' → Q (lo + count) s'.
Proof.
  revert lo s. induction count as [|c IH]; intros lo s H0 Hstep.
  - simpl. intros [= <-]. by rewrite Nat.add_0_r.
  - simpl. destruct (body lo s) as [s1| |] eqn:E1; simpl; try done.
    intros E. replace (lo + Datatypes.S c) with (Datatypes.S lo + c) by lia.
    apply (IH (Datatypes.S lo) s1); [|intros i s2 s3 Hi; apply Hstep; lia|done].
    apply (Hstep lo s s1); [lia|done|done].
Qed.

Lemma visit_face_data m used i seen b b' :
  split_inv m seen b → data_inv m seen b →
  Forall (λ x, (x < 2 ^ 32)%N) seen →
  i < length (tinyobj.material_ids m) →
  negb (uses m used i) || face_ok m i = true →
  visit_face m used i b = Ok b' →
  data_inv m (seen ++ (if uses m used i then face_indices m i else [])) b'.
Proof.
  intros Hinv Hdata Hseen Hi Hok. unfold visit_face, uses in *.
  apply lookup_lt_is_Some in Hi as [id Hid]. unfold at_ at 1. rewrite Hid in *.
  cbn [bind]. destruct (Z.eqb id used); cbn [negb] in *.
  2:{ intros [= <-]. by rewrite app_nil_r. }
  rewrite orb_false_l in Hok. unfold face_ok in Hok.
  apply andb_true_iff in Hok as [[Hnum Hlen]%andb_true_iff Hvs].
  apply bool_decide_eq_true in Hnum. apply Nat.leb_le in Hlen.
  rewrite forallb_forall in Hvs.
  unfold at_ at 1. rewrite Hnum. cbn [bind]. rewrite N.eqb_refl. cbn [negb].
  change (N.to_nat 3) with 3.
  pose proof (face_indices_length m i Hlen) as Hfl.
  intros E.
  apply (for_loop_post _
    (λ j b0, split_inv m (seen ++ take j (face_indices m i)) b0 ∧
             Forall (λ x, (x < 2 ^ 32)%N) (seen ++ take j (face_indices m i)) ∧
             data_inv m (seen ++ take j (face_indices m i)) b0)) in E.
  - rewrite take_ge in E by (simpl; lia). by destruct E as (_ & _ & E).
  - by rewrite take_0, app_nil_r.
  - clear E. intros j b0 b1 [_ Hj] (Hinv0 & Hseen0 & Hdata0). simpl in Hj.
    destruct (lookup_lt_is_Some_2 (face_indices m i) j) as [old Hold]; [lia|].
    pose proof Hold as Hold'. rewrite face_indices_lookup in Hold' by done.
    unfold at_. rewrite Hold'. cbn [bind]. intros E1.
    assert (vertex_ok m old = true) as Hvo.
    { apply Hvs. apply list_elem_of_In. by eapply list_elem_of_lookup_2. }
    destruct (visit_vertex_inv m _ old b0 Hinv0 Hseen0 Hvo) as (b2 & E2 & Hinv2).
    assert (b2 = b1) as -> by congruence.
    rewrite (take_S_r _ _ old) by done. rewrite app_assoc.
    split; [done|]. split.
    + apply Forall_app. split; [done|]. constructor; [|done].
      by apply vertex_ok_inv in Hvo as [? _].
    + by apply (visit_vertex_data m _ old b0).
Qed.

Lemma split_data m used b :
  shape_ok m used = true → split m used = Ok b → data_inv m (face_refs m used) b.
Proof.
  intros Hok E. unfold split, face_refs in *.
  apply (for_loop_post _
    (λ i b,
       split_inv m
         (flat_map (λ i, if uses m used i then face_indices m i else []) (seq 0 i)) b ∧
       Forall (λ x, (x < 2 ^ 32)%N)
         (flat_map (λ i, if uses m used i then face_indices m i else []) (seq 0 i)) ∧
       data_inv m
         (flat_map (λ i, if uses m used i then face_indices m i else []) (seq 0 i)) b))
    in E.
  - by destruct E as (_ & _ & E).
  - split; [apply split_inv_init|]. split; [constructor|].
    unfold data_inv. simpl. repeat split. by case_bool_decide.
  - clear E. intros i b0 b1 [_ Hi] (Hinv & Hseen & Hdata) E. simpl in Hi.
    pose proof (shape_ok_face m used i Hok Hi) as Hf.
    destruct (visit_face_inv m used i _ b0 Hinv Hseen Hi Hf) as (b2 & E2 & Hinv2 & Hseen2).
    assert (b2 = b1) as -> by congruence.
    rewrite face_refs_upto. split; [done|]. split; [done|].
    by apply (visit_face_data m used i _ b0).
Qed.

Lemma face_refs_vertex_ok m used :
  shape_ok m used = true → Forall (λ old, vertex_ok m old = true) (face_refs m used).
Proof.
  intros Hok. unfold face_refs. apply Forall_forall. intros old Hin.
  apply list_elem_of_In, in_flat_map in Hin as (i & Hi%in_seq & Hold).
  pose proof (shape_ok_face m used i Hok ltac:(lia)) as Hf.
  destruct (uses m used i); [|by destruct Hold].
  cbn [negb orb] in Hf. unfold face_ok in Hf.
  apply andb_true_iff in Hf as [_ Hvs]. rewrite forallb_forall in Hvs. by apply Hvs.
Qed.

Lemma distinct_vertex_ok m used :
  shape_ok m used = true →
  Forall (λ old, vertex_ok m old = true) (first_occurrences (face_refs m used)).
Proof.
  intros Hok. pose proof (face_refs_vertex_ok m used Hok) as H.
  rewrite Forall_forall in *. intros old Hin. by apply H, first_occurrences_elem.
Qed.

(** The buffers of the mesh made from a finished split. *)
Lemma make_mesh_buffers m used b :
  shape_ok m used = true → split m used = Ok b →
  let distinct := first_occurrences (face_refs m used) in
  (∀ k, mesh_vertices (make_mesh b) !! k
        = distinct !! k ≫= attribute3 (tinyobj.positions m)) ∧
  (∀ k, mesh_normals (make_mesh b) !! k
        = distinct !! k ≫= attribute3 (tinyobj.normals m)) ∧
  (tinyobj.texcoords m ≠ [] →
   ∀ k, mesh_uvs (make_mesh b) !! k
        = distinct !! k ≫= attribute2 (tinyobj.texcoords m)) ∧
  length (mesh_vertices (make_mesh b)) = length distinct ∧
  length (mesh_normals (make_mesh b)) = length distinct ∧
  length (mesh_uvs (make_mesh b)) = length distinct.
Proof.
  intros Hok E. cbv zeta.
  destruct (split_ok m used Hok) as (b0 & E0 & Hinv & _).
  assert (b0 = b) as -> by congruence.
  pose proof (split_data m used b Hok E) as (Dv & Dn & Dt).
  pose proof (distinct_vertex_ok m used Hok) as Hvs.
  destruct Hinv as (_ & _ & Lv & Ln & Lt).
  set (distinct := first_occurrences (face_refs m used)) in *.
  assert (Forall (λ old, in_range (tinyobj.positions m) 3 old 3 = true) distinct) as Hp.
  { eapply Forall_impl; [exact Hvs|]. intros old H. by apply vertex_ok_inv in H as (_ & ? & _). }
  assert (Forall (λ old, in_range (tinyobj.normals m) 3 old 3 = true) distinct) as Hn.
  { eapply Forall_impl; [exact Hvs|]. intros old H. by apply vertex_ok_inv in H as (_ & _ & ? & _). }
  unfold make_mesh.
  cbn [mesh_vertices mesh_normals mesh_uvs].
  rewrite Lv, Ln, (Nat.mul_comm 3), Nat.div_mul by done.
  rewrite Dv, Dn.
  split; [by apply pack3_gather|]. split; [by apply pack3_gather|].
  assert (length (pack3 (length distinct)
            (flat_map (λ old, gather (tinyobj.positions m) 3 old 3) distinct))
          = length distinct) as Lpv.
  { apply pack3_length. rewrite <- Dv. lia. }
  assert (length (pack3 (length distinct)
            (flat_map (λ old, gather (tinyobj.normals m) 3 old 3) distinct))
          = length distinct) as Lpn.
  { apply pack3_length. rewrite <- Dn. lia. }
  case_bool_decide as Hte.
  - rewrite Lt. simpl. split; [done|]. by rewrite length_replicate.
  - assert (Forall (λ old, in_range (tinyobj.texcoords m) 2 old 2 = true) distinct) as Ht.
    { eapply Forall_impl; [exact Hvs|]. intros old H.
      apply vertex_ok_inv in H as (_ & _ & _ & H). by apply H. }
    rewrite Lt, (Nat.mul_comm 2), Nat.div_mul by done. rewrite Dt.
    destruct (Nat.eqb_spec (length distinct) 0) as [Hz|Hnz]; cbn [negb].
    + rewrite Hz. simpl. split; [|done]. intros _ k.
      destruct distinct; [done|discriminate].
    + split; [intros _; by apply pack2_gather|]. split; [done|]. split; [done|].
      assert (∀ n l, 2 * n ≤ length l → length (pack2 n l) = n) as Hp2.
      { induction n as [|n IH]; intros l Hl; [by destruct l|].
        destruct l as [|a [|c l]]; simpl in Hl; try lia.
        simpl. rewrite IH; [done|]. lia. }
      apply Hp2. rewrite <- Dt. lia.
Qed.

(** X11. Splitting keeps the geometry: the vertex that the new index of a
    face reference selects in the split mesh has the position and the
    normal of the original vertex of that reference, and its texture
    coordinates when the shape has any. *)
Theorem split_preserves_attributes m used_material :
  shape_ok m used_material = true →
  ∃ b, split m used_material = Ok b ∧
    let mesh := make_mesh b in
    ∀ j old_index, face_refs m used_material !! j = Some old_index →
      ∃ new_index v n,
        mesh_indices mesh !! j = Some new_index ∧
        attribute3 (tinyobj.positions m) old_index = Some v ∧
        attribute3 (tinyobj.normals m) old_index = Some n ∧
        mesh_vertices mesh !! N.to_nat new_index = Some v ∧
        mesh_normals mesh !! N.to_nat new_index = Some n ∧
        (tinyobj.texcoords m ≠ [] →
         ∃ uv, attribute2 (tinyobj.texcoords m) old_index = Some uv ∧
               mesh_uvs mesh !! N.to_nat new_index = Some uv).
Proof.
  intros Hok. destruct (split_ok m used_material Hok) as (b & E & Hinv & _).
  exists b. split; [done|]. cbv zeta. intros j old Hj.
  destruct (make_mesh_buffers m used_material b Hok E) as (Bv & Bn & Bt & _).
  pose proof (face_refs_vertex_ok m used_material Hok) as Hvs.
  rewrite Forall_forall in Hvs.
  assert (old ∈ face_refs m used_material) as Hin by by eapply list_elem_of_lookup_2.
  pose proof (Hvs old Hin) as Hvo. apply vertex_ok_inv in Hvo as (_ & Hp & Hn & Ht).
  destruct (gather3 _ _ Hp) as (a1 & a2 & a3 & _ & Hv).
  destruct (gather3 _ _ Hn) as (n1 & n2 & n3 & _ & Hnn).
  destruct Hinv as (_ & Hidx & _).
  set (distinct := first_occurrences (face_refs m used_material)) in *.
  destruct (position old distinct) as [k|] eqn:Hpos.
  2:{ apply position_None in Hpos. by apply first_occurrences_elem in Hin. }
  pose proof (position_Some _ _ _ Hpos) as [Hk _].
  exists (N.of_nat k), (mk_float3 a1 a2 a3), (mk_float3 n1 n2 n3).
  rewrite Nat2N.id, Bv, Bn, Hk. cbn [mbind option_bind].
  split.
  { cbn [make_mesh mesh_indices]. rewrite Hidx, list_lookup_fmap, Hj. simpl.
    unfold compact. by rewrite Hpos. }
  repeat split; try done.
  intros Hte. destruct (gather2 _ _ (Ht Hte)) as (u1 & u2 & _ & Hu).
  exists (mk_float2 u1 u2). split; [done|].
  by rewrite (Bt Hte), Hk.
Qed.

(** X12. The three attribute buffers of a split mesh have one entry per
    vertex: normals and UVs are as long as the vertex buffer, whether the
    shape has texture coordinates or not. *)
Theorem attribute_buffers_agree m used_material :
  shape_ok m used_material = true →
  ∃ b, split m used_material = Ok b ∧
    length (mesh_normals (make_mesh b)) = length (mesh_vertices (make_mesh b)) ∧
    length (mesh_uvs (make_mesh b)) = length (mesh_vertices (make_mesh b)).
Proof.
  intros Hok. destruct (split_ok m used_material Hok) as (b & E & _).
  exists b. split; [done|].
  destruct (make_mesh_buffers m used_material b Hok E) as (_ & _ & _ & -> & -> & ->).
  done.
Qed.

(** X13. A material id that no face carries gives the empty split, whatever
    the arrays of the shape hold: faces of other materials are skipped
    without reading their vertex counts or indices. *)
Theorem split_unused_material m used_material :
  used_material ∉ tinyobj.material_ids m →
  split m used_material = Ok no_buffers ∧
  mesh_vertices (make_mesh no_buffers) = [] ∧
  mesh_indices (make_mesh no_buffers) = [] ∧
  mesh_uvs (make_mesh no_buffers) = [].
Proof.
  intros Hnot. split; [|done]. unfold split.
  edestruct (for_loop_inv (visit_face m used_material) (λ _ b, b = no_buffers)
               0 (length (tinyobj.material_ids m)) no_buffers) as (b & E & ->);
    [done| |done].
  intros i b [_ Hi] ->. simpl in Hi.
  apply lookup_lt_is_Some in Hi as [id Hid].
  exists no_buffers. split; [|done].
  unfold visit_face, at_. rewrite Hid. cbn [bind].
  destruct (Z.eqb_spec id used_material) as [->|Hne]; [|done].
  exfalso. apply Hnot. by eapply list_elem_of_lookup_2.
Qed.



(** ** The material ids of a shape *)

Lemma set_insert_elem x y s : y ∈ set_insert x s ↔ y = x ∨ y ∈ s.
Proof.
  induction s as [|z s IH]; simpl.
  - rewrite list_elem_of_singleton. split; [by left|]. intros [?|H]; [done|].
    by apply elem_of_nil in H.
  - destruct (Z.ltb_spec x z).
    + by rewrite elem_of_cons.
    + destruct (Z.eqb_spec x z) as [->|Hne].
      * rewrite elem_of_cons. tauto.
      * rewrite !elem_of_cons, IH. tauto.
Qed.

Lemma set_insert_sorted x s :
  StronglySorted Z.lt s → StronglySorted Z.lt (set_insert x s).
Proof.
  induction 1 as [|z s Hs IH Hz]; simpl.
  - repeat constructor.
  - destruct (Z.ltb_spec x z).
    + constructor; [by constructor|]. constructor; [done|].
      eapply Forall_impl; [exact Hz|]. intros y Hy. simpl in Hy. lia.
    + destruct (Z.eqb_spec x z) as [->|Hne]; [by constructor|].
      constructor; [done|]. apply Forall_forall. intros y Hy.
      apply set_insert_elem in Hy as [->|Hy]; [lia|].
      rewrite Forall_forall in Hz. by apply Hz.
Qed.

Lemma std_set_elem x l : x ∈ std_set l ↔ x ∈ l.
Proof.
  induction l as [|y l IH]; [done|]. unfold std_set in *. simpl.
  rewrite set_insert_elem, IH, elem_of_cons. tauto.
Qed.

Lemma std_set_sorted l : StronglySorted Z.lt (std_set l).
Proof.
  induction l as [|y l IH]; [constructor|]. unfold std_set in *. simpl.
  by apply set_insert_sorted.
Qed.

Lemma std_set_NoDup l : NoDup (std_set l).
Proof.
  induction (std_set_sorted l) as [|z s Hs IH Hz]; [constructor|].
  constructor; [|done]. intros Hin. rewrite Forall_forall in Hz.
  specialize (Hz z Hin). simpl in Hz. lia.
Qed.


Lemma sum_indicator x ks :
  NoDup ks → x ∈ ks →
  sum_list (map (λ k, if Z.eqb x k then 1 else 0) ks) = 1.
Proof.
  induction 1 as [|k ks Hk Hnd IH]; intros Hin; [by apply elem_of_nil in Hin|].
  simpl. destruct (Z.eqb_spec x k) as [->|Hne].
  - assert (sum_list (map (λ k0, if Z.eqb k k0 then 1 else 0) ks) = 0) as ->; [|done].
    clear IH Hin Hnd. induction ks as [|y ks IH]; [done|].
    simpl. apply not_elem_of_cons in Hk as [Hy Hk].
    destruct (Z.eqb_spec k y); [done|]. by apply IH.
  - apply elem_of_cons in Hin as [?|Hin]; [done|]. by rewrite IH.
Qed.

Lemma sum_list_add {A} (f g : A → nat) l :
  sum_list (map (λ k, f k + g k) l) = sum_list (map f l) + sum_list (map g l).
Proof. induction l as [|x l IH]; [done|]. simpl. rewrite IH. lia. Qed.

Lemma faces_partition m ks i :
  NoDup ks → (∀ x, x ∈ tinyobj.material_ids m → x ∈ ks) →
  i ≤ length (tinyobj.material_ids m) →
  sum_list (map (λ k, length (List.filter (uses m k) (seq 0 i))) ks) = i.
Proof.
  intros Hnd Hall. induction i as [|i IH]; intros Hi.
  - simpl. clear. by induction ks as [|k ks IHk].
  - destruct (lookup_lt_is_Some_2 (tinyobj.material_ids m) i) as [id Hid]; [lia|].
    transitivity
      (sum_list (map (λ k, length (List.filter (uses m k) (seq 0 i))
                           + (if Z.eqb id k then 1 else 0)) ks)).
    { f_equal. apply map_ext. intros k.
      rewrite seq_S, List.filter_app, length_app. simpl. unfold uses at 2. rewrite Hid.
      by destruct (Z.eqb id k). }
    rewrite sum_list_add, IH, sum_indicator; [lia|done| |lia].
    apply Hall. by eapply list_elem_of_lookup_2.
Qed.

Lemma split_lengths m ks :
  (∀ id, id ∈ ks → shape_ok m id = true) →
  sum_list
    (map (λ id, match split m id with Ok b => length (indices b) | _ => 0 end) ks)
  = 3 * sum_list
          (map (λ k, length (List.filter (uses m k)
                               (seq 0 (length (tinyobj.material_ids m))))) ks).
Proof.
  induction ks as [|id ks IH]; intros Hok; [done|].
  rewrite !map_cons. unfold sum_list in *. cbn [sum_list_with].
  assert (shape_ok m id = true) as Hid by (apply Hok; left).
  destruct (split_ok m id Hid) as (b & -> & (_ & Hidx & _) & _).
  rewrite Hidx, length_map, face_refs_length by done.
  rewrite IH by (intros; apply Hok; by right). unfold Datatypes.id. lia.
Qed.

(** X16. Every face lands in exactly one sub-mesh: the index buffers of the
    splits of a shape by its material ids total three entries per face. *)
Theorem submeshes_cover_faces m :
  (∀ id, id ∈ tinyobj.material_ids m → shape_ok m id = true) →
  sum_list
    (map (λ id, match split m id with Ok b => length (indices b) | _ => 0 end)
         (std_set (tinyobj.material_ids m)))
  = 3 * length (tinyobj.material_ids m).
Proof.
  intros Hok. rewrite split_lengths.
  - rewrite faces_partition; [done|apply std_set_NoDup| |done].
    intros x. apply std_set_elem.
  - intros id Hid. by apply Hok, std_set_elem.
Qed.

(** ** The material array of a load *)

Lemma extends_material st s r m :
  extends st s → material_store st !! r = Some m → material_store s !! r = Some m.
Proof. intros (_ & H & _) Hr. by eapply prefix_lookup_Some. Qed.

Lemma extends_material_cached st s n r :
  extends st s → m_material_cache st !! n = Some r → m_material_cache s !! n = Some r.
Proof. intros (_ & _ & _ & _ & H & _) Hn. by eapply lookup_weaken. Qed.

Lemma TranslateMaterial_mesh_store io mat bp st :
  mesh_store (TranslateMaterial io mat bp st).2 = mesh_store st.
Proof.
  destruct (m_material_cache st !! name mat) as [r|] eqn:H.
  - by rewrite (TranslateMaterial_hit _ _ _ _ r).
  - rewrite TranslateMaterial_miss by done. simpl.
    by destruct (classify_frame io mat bp st) as (_ & _ & ->).
Qed.

Lemma translate_materials_spec io objmaterials bp acc em st :
  material_cache_ok st →
  ∃ materials emissives st',
    translate_materials io objmaterials bp acc em st
      = (Ok (acc ++ materials, emissives), st') ∧
    length materials = length objmaterials ∧
    extends st st' ∧ material_cache_ok st' ∧ mesh_store st' = mesh_store st ∧
    (∀ i mat, objmaterials !! i = Some mat →
       ∃ r m, materials !! i = Some r ∧
              m_material_cache st' !! name mat = Some r ∧
              material_store st' !! r = Some m ∧ material_name m = name mat) ∧
    (∀ r, r ∈ emissives ↔
          r ∈ em ∨ ∃ m, r ∈ materials ∧ material_store st' !! r = Some m ∧
                        HasEmission m = true).
Proof.
  revert acc em st. induction objmaterials as [|mat rest IH]; intros acc em st Hok.
  - exists [], em, st. rewrite app_nil_r.
    split; [done|]. split; [done|]. split; [apply extends_refl|].
    split; [done|]. split; [done|]. split; [done|].
    intros r. split; [by left|].
    intros [?|(m & Hin & _)]; [done|]. by apply elem_of_nil in Hin.
  - simpl.
    pose proof (TranslateMaterial_material_cache_ok io mat bp st Hok) as Hok1.
    pose proof (TranslateMaterial_extends io mat bp st) as Hext1.
    pose proof (TranslateMaterial_cached io mat bp st) as Hc1.
    pose proof (TranslateMaterial_mesh_store io mat bp st) as Hms1.
    destruct (TranslateMaterial_result_named io mat bp st Hok) as (m & Hm & Hname).
    unfold translated in Hm.
    destruct (TranslateMaterial io mat bp st) as [r st1]. simpl in *.
    rewrite Hm.
    destruct (IH (acc ++ [r])
                 (if HasEmission m then {[r]} ∪ em else em) st1 Hok1)
      as (materials & emissives & st' & E & Hlen & Hext & Hok' & Hms & Hidx & Hem).
    exists (r :: materials), emissives, st'.
    rewrite E, <- app_assoc. simpl.
    split; [done|]. split; [by rewrite Hlen|].
    split; [by eapply extends_trans|]. split; [done|]. split; [congruence|].
    split.
    + intros [|i] mat' Hi; simpl in Hi.
      * injection Hi as <-. exists r, m. split; [done|].
        split; [by eapply extends_material_cached|].
        split; [by eapply extends_material|done].
      * by apply Hidx.
    + intros r0. rewrite Hem. split.
      * intros [Hin|(m0 & Hin & Hs & He)].
        -- destruct (HasEmission m) eqn:Hhe; [|by left].
           apply elem_of_union in Hin as [->%elem_of_singleton|?]; [|by left].
           right. exists m. split; [left|]. split; [by eapply extends_material|done].
        -- right. exists m0. split; [by right|done].
      * intros [Hin|(m0 & Hin & Hs & He)].
        -- left. destruct (HasEmission m); [|done]. apply elem_of_union. by right.
        -- apply elem_of_cons in Hin as [->|Hin].
           ++ left. pose proof (extends_material _ _ _ _ Hext Hm) as Hm'.
              assert (Some m0 = Some m) as [= ->] by (rewrite <- Hs; exact Hm').
              rewrite He. apply elem_of_union. left. by apply elem_of_singleton.
           ++ right. by exists m0.
Qed.

(** X17. The material array of a load has one entry per material record, in
    record order: entry [i] is the reference cached for the name of record
    [i] and leads to a material of that name; the emissive set holds
    exactly the entries whose material has emission. *)
Theorem material_array_in_order io objmaterials bp st :
  material_cache_ok st →
  ∃ materials emissives,
    (translate_materials io objmaterials bp [] ∅ st).1 = Ok (materials, emissives) ∧
    let st' := (translate_materials io objmaterials bp [] ∅ st).2 in
    length materials = length objmaterials ∧
    (∀ i mat, objmaterials !! i = Some mat →
       ∃ r m, materials !! i = Some r ∧
              m_material_cache st' !! name mat = Some r ∧
              material_store st' !! r = Some m ∧ material_name m = name mat) ∧
    (∀ r, r ∈ emissives ↔
          ∃ m, r ∈ materials ∧ material_store st' !! r = Some m ∧
               HasEmission m = true).
Proof.
  intros Hok.
  destruct (translate_materials_spec io objmaterials bp [] ∅ st Hok)
    as (materials & emissives & st' & E & Hlen & _ & _ & _ & Hidx & Hem).
  exists materials, emissives. rewrite E. simpl. repeat split; try done.
  - intros Hr. apply Hem in Hr as [Hr|Hr]; [|done]. by apply elem_of_empty in Hr.
  - intros Hr. apply Hem. by right.
Qed.

(** ** The scene of a load *)

Lemma only_meshes_added_refl st : only_meshes_added st st.
Proof. unfold only_meshes_added. repeat split; done. Qed.

Lemma only_meshes_added_trans st1 st2 st3 :
  only_meshes_added st1 st2 → only_meshes_added st2 st3 → only_meshes_added st1 st3.
Proof.
  intros (A1 & A2 & A3 & A4 & A5 & A6) (B1 & B2 & B3 & B4 & B5 & B6).
  unfold only_meshes_added. repeat split; try congruence. by etrans.
Qed.

Lemma scene_ok_grow materials emissives scene st st' :
  scene_ok materials emissives scene st → mesh_store st `prefix_of` mesh_store st' →
  scene_ok materials emissives scene st'.
Proof.
  intros [Hs Hl] Hp. split.
  - intros p Hin. destruct (Hs p Hin) as (mesh & Hm & H). exists mesh.
    split; [by eapply prefix_lookup_Some|done].
  - intros light Hin. destruct (Hl light Hin) as (p & l & mesh & r & H1 & H2 & H3 & H4).
    exists p, l, mesh, r. split; [done|]. split; [done|].
    split; [by eapply prefix_lookup_Some|done].
Qed.

Lemma split_mesh_ok m used b :
  shape_ok m used = true → used ∈ tinyobj.material_ids m → split m used = Ok b →
  mesh_ok (make_mesh b).
Proof.
  intros Hok Hused E.
  destruct (split_ok m used Hok) as (b0 & E0 & Hinv & _).
  assert (b0 = b) as -> by congruence.
  destruct (make_mesh_buffers m used b Hok E) as (_ & _ & _ & Lv & Ln & Lu).
  pose proof (face_refs_length m used Hok) as Hrefs.
  destruct Hinv as (_ & Hidx & _).
  assert (face_refs m used ≠ []) as Hne.
  { apply list_elem_of_lookup in Hused as [i Hi].
    assert (In i (List.filter (uses m used) (seq 0 (length (tinyobj.material_ids m)))))
      as Hin.
    { apply filter_In. split.
      - apply in_seq. apply lookup_lt_Some in Hi. lia.
      - unfold uses. rewrite Hi. apply Z.eqb_refl. }
    destruct (List.filter _ _) as [|j l]; [done|]. simpl in Hrefs.
    intros Hnil. rewrite Hnil in Hrefs. simpl in Hrefs. lia. }
  unfold mesh_ok. cbn [make_mesh mesh_indices]. rewrite Lv, Ln, Lu, Hidx.
  split. { intros Hnil. apply Hne. by apply fmap_nil_inv in Hnil. }
  split. { eexists. by rewrite length_map, Hrefs. }
  split; [|done].
  apply Forall_forall. intros i Hi. apply list_elem_of_In, in_map_iff in Hi.
  destruct Hi as (x & <- & Hx). apply compact_lt, first_occurrences_elem.
  by apply list_elem_of_In.
Qed.

Lemma mesh_ok_SetMaterial r mesh : mesh_ok mesh → mesh_ok (SetMaterial r mesh).
Proof. done. Qed.

Lemma submesh_input_ok_inv (materials : list ref) shape id :
  submesh_input_ok (length materials) shape id = true →
  shape_ok (tinyobj.mesh shape) id = true ∧
  ((0 ≤ id)%Z → is_Some (materials !! Z.to_nat id)).
Proof.
  unfold submesh_input_ok. rewrite andb_true_iff, orb_true_iff.
  intros [Hs [Hneg%Z.ltb_lt|Hlt%Nat.ltb_lt]]; (split; [done|]); [lia|].
  intros _. by apply lookup_lt_is_Some.
Qed.

(** One pass of the loop body on a consistent scene. *)
Lemma attach_submesh_spec materials emissives shape id scene st :
  submesh_input_ok (length materials) shape id = true →
  id ∈ tinyobj.material_ids (tinyobj.mesh shape) →
  scene_ok materials emissives scene st →
  ∃ scene' st',
    attach_submesh materials emissives shape id (scene, st) = Ok (scene', st') ∧
    scene_ok materials emissives scene' st' ∧
    only_meshes_added st st' ∧
    length (mesh_store st') = Datatypes.S (length (mesh_store st)) ∧
    m_shapes scene' = m_shapes scene ++ [length (mesh_store st)].
Proof.
  intros Hin Hid [Hs Hl].
  apply submesh_input_ok_inv in Hin as [Hok Hmat].
  destruct (split_ok _ _ Hok) as (b & E & _).
  pose proof (split_mesh_ok _ _ _ Hok Hid E) as Hmesh.
  unfold attach_submesh. rewrite E. cbn [bind].
  set (p := length (mesh_store st)).
  assert (∀ mesh scene1,
    mesh_ok mesh → (∀ r, mesh_material mesh = Some r → r ∈ materials) →
    (m_shapes scene1 = m_shapes scene ++ [p] ∧
     ∃ ls, m_lights scene1 = m_lights scene ++ map (AreaLight p) ls ∧
           ∀ l, l ∈ ls → 3 * l + 3 ≤ length (mesh_indices mesh) ∧
                         ∃ r, mesh_material mesh = Some r ∧ r ∈ emissives) →
    scene_ok materials emissives scene1 (new_mesh mesh st).2) as Hbuild.
  { intros mesh scene1 Hm Hr (Hsh & ls & Hli & Hls). split.
    - intros q. rewrite Hsh, elem_of_app, list_elem_of_singleton.
      intros [Hq| ->].
      + destruct (Hs q Hq) as (mesh' & Hm' & H'). exists mesh'.
        split; [|done]. simpl. by apply lookup_app_l_Some.
      + exists mesh. simpl. split; [by apply list_lookup_middle|done].
    - intros light. rewrite Hli, elem_of_app. intros [Hq|Hq].
      + destruct (Hl light Hq) as (q & l & mesh' & r & H1 & H2 & H3 & H4).
        exists q, l, mesh', r. split; [done|]. rewrite Hsh.
        split; [apply elem_of_app; by left|].
        split; [simpl; by apply lookup_app_l_Some|done].
      + apply list_elem_of_fmap in Hq as (l & -> & Hq).
        destruct (Hls l Hq) as (Hlt & r & Hr1 & Hr2).
        exists p, l, mesh, r. split; [done|]. rewrite Hsh.
        split; [apply elem_of_app; right; by apply list_elem_of_singleton|].
        split; [simpl; by apply list_lookup_middle|done]. }
  assert (∀ mesh, only_meshes_added st (new_mesh mesh st).2) as Hadd.
  { intros mesh. unfold only_meshes_added. simpl. repeat split; try done.
    by apply prefix_app_r. }
  destruct (Z.leb_spec 0 id) as [Hge|Hlt].
  - destruct (Hmat Hge) as [material Hm].
    unfold at_. rewrite Hm. cbn [bind new_mesh]. fold p.
    destruct (attach_area_lights_spec p (SetMaterial material (make_mesh b))
                (AttachShape p scene)) as [Hsh Hli].
    eexists _, _. split; [reflexivity|].
    split; [|split; [apply (Hadd (SetMaterial material (make_mesh b)))|]].
    2:{ simpl. rewrite length_app. simpl. split; [lia|].
        case_bool_decide; [|done]. by rewrite Hsh. }
    apply (Hbuild (SetMaterial material (make_mesh b)));
      [done| |].
    { intros r [= <-]. by eapply list_elem_of_lookup_2. }
    case_bool_decide as Hem.
    + rewrite Hsh, Hli. split; [done|]. eexists. split; [reflexivity|].
      intros l Hl'%elem_of_seq. split; [|by exists material].
      unfold GetNumIndices in Hl'.
      destruct Hmesh as (_ & (K & HK) & _).
      cbn [SetMaterial mesh_indices] in *. rewrite HK in *.
      rewrite Nat.mul_comm, Nat.div_mul in Hl' by done. lia.
    + split; [done|]. exists []. simpl. rewrite app_nil_r. split; [done|].
      intros l Hl'. by apply elem_of_nil in Hl'.
  - cbn [bind new_mesh]. fold p.
    eexists _, _. split; [reflexivity|].
    split; [|split; [apply (Hadd (make_mesh b))|]].
    2:{ simpl. rewrite length_app. simpl. split; [lia|done]. }
    apply (Hbuild (make_mesh b)); [done|done|].
    split; [done|]. exists []. simpl. rewrite app_nil_r. split; [done|].
    intros l Hl'. by apply elem_of_nil in Hl'.
Qed.

Lemma attach_submeshes_spec materials emissives shape ids scene st :
  (∀ id, id ∈ ids →
     submesh_input_ok (length materials) shape id = true ∧
     id ∈ tinyobj.material_ids (tinyobj.mesh shape)) →
  scene_ok materials emissives scene st →
  ∃ scene' st',
    attach_submeshes materials emissives shape ids (scene, st) = Ok (scene', st') ∧
    scene_ok materials emissives scene' st' ∧
    only_meshes_added st st' ∧
    length (mesh_store st') = length (mesh_store st) + length ids ∧
    m_shapes scene' = m_shapes scene ++ seq (length (mesh_store st)) (length ids).
Proof.
  revert scene st. induction ids as [|id ids IH]; intros scene st Hids Hok.
  - exists scene, st. simpl. rewrite app_nil_r, Nat.add_0_r.
    repeat split; try done; apply Hok || apply only_meshes_added_refl.
  - destruct (Hids id) as [Hin Hid]; [left|].
    destruct (attach_submesh_spec materials emissives shape id scene st Hin Hid Hok)
      as (scene1 & st1 & E1 & Hok1 & Hadd1 & Hlen1 & Hsh1).
    destruct (IH scene1 st1) as (scene2 & st2 & E2 & Hok2 & Hadd2 & Hlen2 & Hsh2);
      [intros; apply Hids; by right|done|].
    exists scene2, st2. cbn [attach_submeshes]. rewrite E1. cbn [bind].
    split; [done|]. split; [done|].
    split; [by eapply only_meshes_added_trans|].
    split; [simpl; lia|].
    rewrite Hsh2, Hsh1, Hlen1, <- app_assoc. done.
Qed.

Lemma submesh_count_cons shape rest :
  submesh_count (shape :: rest)
  = length (std_set (tinyobj.material_ids (tinyobj.mesh shape))) + submesh_count rest.
Proof. reflexivity. Qed.

Lemma attach_shapes_spec materials emissives objshapes scene st :
  input_ok (length materials) objshapes = true →
  scene_ok materials emissives scene st →
  ∃ scene' st',
    attach_shapes materials emissives objshapes (scene, st) = Ok (scene', st') ∧
    scene_ok materials emissives scene' st' ∧
    only_meshes_added st st' ∧
    length (mesh_store st') = length (mesh_store st) + submesh_count objshapes ∧
    m_shapes scene'
      = m_shapes scene ++ seq (length (mesh_store st)) (submesh_count objshapes).
Proof.
  revert scene st. induction objshapes as [|shape rest IH]; intros scene st Hin Hok.
  - exists scene, st. simpl. rewrite app_nil_r, Nat.add_0_r.
    repeat split; try done; apply Hok || apply only_meshes_added_refl.
  - simpl in Hin. apply andb_true_iff in Hin as [Hshape Hrest].
    unfold shape_input_ok in Hshape. rewrite forallb_forall in Hshape.
    destruct (attach_submeshes_spec materials emissives shape
                (std_set (tinyobj.material_ids (tinyobj.mesh shape))) scene st)
      as (scene1 & st1 & E1 & Hok1 & Hadd1 & Hlen1 & Hsh1); [|done|].
    { intros id Hid. split; [by apply Hshape, list_elem_of_In|by apply std_set_elem]. }
    destruct (IH scene1 st1 Hrest Hok1)
      as (scene2 & st2 & E2 & Hok2 & Hadd2 & Hlen2 & Hsh2).
    exists scene2, st2. cbn [attach_shapes]. rewrite E1. cbn [bind].
    split; [done|]. split; [done|].
    split; [by eapply only_meshes_added_trans|].
    rewrite submesh_count_cons.
    split; [lia|].
    rewrite Hsh2, Hsh1, Hlen1, <- app_assoc, <- seq_app. done.
Qed.

(** The loader and the scene when a load reaches the environment image. *)
Lemma LoadScene_before_environment io objshapes objmaterials filename bp st :
  material_cache_ok st →
  input_ok (length objmaterials) objshapes = true →
  ∃ materials emissives st1 scene st2,
    translate_materials io objmaterials bp [] ∅
      (LogInfo ("Success" +:+ LF)
         (LogInfo ("Loading a scene from OBJ: " +:+ filename +:+ " ... ") st))
      = (Ok (materials, emissives), st1) ∧
    attach_shapes materials emissives objshapes (Scene1_Create, st1)
      = Ok (scene, st2) ∧
    scene_ok materials emissives scene st2 ∧
    only_meshes_added st1 st2 ∧
    extends st st1 ∧
    mesh_store st1 = mesh_store st ∧
    length (mesh_store st2) = length (mesh_store st) + submesh_count objshapes ∧
    m_shapes scene = seq (length (mesh_store st)) (submesh_count objshapes) ∧
    (∀ i mat, objmaterials !! i = Some mat →
       is_Some (m_material_cache st1 !! name mat)) ∧
    (∀ r, r ∈ materials → is_Some (material_store st1 !! r)) ∧
    (∀ r, r ∈ emissives →
       ∃ m, material_store st1 !! r = Some m ∧ HasEmission m = true).
Proof.
  intros Hok Hin.
  set (st0 := LogInfo ("Success" +:+ LF)
                (LogInfo ("Loading a scene from OBJ: " +:+ filename +:+ " ... ") st)).
  assert (material_cache_ok st0) as Hok0 by exact Hok.
  assert (extends st st0) as Hext0.
  { unfold extends, st0. simpl. repeat split; try done.
    rewrite <- app_assoc. by apply prefix_app_r. }
  destruct (translate_materials_spec io objmaterials bp [] ∅ st0 Hok0)
    as (materials & emissives & st1 & E1 & Hlen & Hext & Hok1 & Hms & Hidx & Hem).
  simpl in E1. rewrite <- Hlen in Hin.
  destruct (attach_shapes_spec materials emissives objshapes Scene1_Create st1 Hin)
    as (scene & st2 & E2 & Hsok & Hadd & Hlen2 & Hsh).
  { split; intros x Hx; by apply elem_of_nil in Hx. }
  exists materials, emissives, st1, scene, st2.
  split; [done|]. split; [done|]. split; [done|]. split; [done|].
  split; [by eapply extends_trans|]. split; [by rewrite Hms|].
  split; [by rewrite Hlen2, Hms|]. split; [by rewrite Hsh, Hms|].
  split; [|split].
  - intros i mat Hi. destruct (Hidx i mat Hi) as (r & m & _ & Hc & _). by exists r.
  - intros r Hr. apply list_elem_of_lookup in Hr as [i Hi].
    destruct (lookup_lt_is_Some_2 objmaterials i) as [mat Hmat].
    { rewrite <- Hlen. by eapply lookup_lt_Some. }
    destruct (Hidx i mat Hmat) as (r' & m & Hr' & _ & Hs & _).
    assert (r' = r) as -> by congruence. by exists m.
  - intros r Hr. apply Hem in Hr as [Hr|(m & _ & Hs & He)]; [|by exists m].
    by apply elem_of_empty in Hr.
Qed.

(** X18. A load of well-formed parser output whose environment image decodes
    returns a consistent scene: its shapes are the new meshes, one per
    (shape, material id) pair in creation order; every mesh has whole
    triangles, indices below its vertex count, one normal and one UV per
    vertex, and a live material if any; its lights are area lights, each on
    a triangle of an attached mesh whose material has emission, followed by
    the default directional light and the environment light on the newly
    decoded image. *)
Theorem loaded_scene_is_consistent io objshapes objmaterials filename bp st t :
  material_cache_ok st →
  input_ok (length objmaterials) objshapes = true →
  LoadImage io "../Resources/Textures/studio015.hdr" = inr t →
  ∃ scene area env,
    (LoadScene io (inr (objshapes, objmaterials)) filename bp st).1 = Ok scene ∧
    let st' := (LoadScene io (inr (objshapes, objmaterials)) filename bp st).2 in
    extends st st' ∧
    m_shapes scene = seq (length (mesh_store st)) (submesh_count objshapes) ∧
    length (mesh_store st') = length (mesh_store st) + submesh_count objshapes ∧
    (∀ p, p ∈ m_shapes scene →
       ∃ mesh, mesh_store st' !! p = Some mesh ∧ mesh_ok mesh ∧
               ∀ r, mesh_material mesh = Some r → is_Some (material_store st' !! r)) ∧
    m_lights scene
      = area ++
        [DirectionalLight
           (mk_float3 (Float.lit 1 10) (Float.lit (-1) 1) (Float.lit (-1) 10))
           (mk_float3 (Float.lit 1 1) (Float.lit 1 1) (Float.lit 1 1));
         ImageBasedLight (Some env) (Some env) (Float.lit 15 1)] ∧
    texture_store st' !! env = Some t ∧
    ∀ light, light ∈ area →
      ∃ p l mesh r m,
        light = AreaLight p l ∧ p ∈ m_shapes scene ∧
        mesh_store st' !! p = Some mesh ∧
        3 * l + 3 ≤ length (mesh_indices mesh) ∧
        mesh_material mesh = Some r ∧
        material_store st' !! r = Some m ∧ HasEmission m = true.
Proof.
  intros Hok Hin Henv.
  destruct (LoadScene_before_environment io objshapes objmaterials filename bp st Hok Hin)
    as (materials & emissives & st1 & scene & st2 & E1 & E2 & [Hs Hl] & Hadd & Hext
        & _ & Hlen & Hsh & _ & Hmat & Hem).
  assert (extends st
            (new_texture t st2).2) as Hext2.
  { eapply extends_trans; [exact Hext|].
    destruct Hadd as (A1 & A2 & A3 & A4 & A5 & A6).
    unfold extends. simpl. rewrite A1, A2, A3, A4, A5.
    repeat split; try done. by apply prefix_app_r. }
  destruct Hadd as (_ & _ & Hts & Hms & _ & _).
  exists (AttachLight
            (ImageBasedLight (Some (length (texture_store st2)))
               (Some (length (texture_store st2))) (Float.lit 15 1))
            (AttachLight
               (DirectionalLight
                  (mk_float3 (Float.lit 1 10) (Float.lit (-1) 1) (Float.lit (-1) 10))
                  (mk_float3 (Float.lit 1 1) (Float.lit 1 1) (Float.lit 1 1)))
               scene)),
    (m_lights scene), (length (texture_store st2)).
  unfold LoadScene. rewrite E1, E2, Henv. cbn [new_texture fst snd].
  split; [done|]. cbv zeta.
  split; [exact Hext2|].
  cbn [AttachLight m_shapes m_lights mesh_store material_store texture_store].
  split; [done|]. split; [done|]. split.
  { intros p Hp. destruct (Hs p Hp) as (mesh & Hm & Hmo & Hr). exists mesh.
    split; [done|]. split; [done|]. intros r Hmr. rewrite Hms. by apply Hmat, Hr. }
  split; [by rewrite <- app_assoc|]. split; [by apply list_lookup_middle|].
  intros light Hli.
  destruct (Hl light Hli) as (p & l & mesh & r & -> & Hp & Hm & Hlt & Hmr & Hre).
  destruct (Hem r Hre) as (m & Hsm & He).
  exists p, l, mesh, r, m. rewrite Hms. done.
Qed.


(** ** Missing textures *)

(** C4, amended. A record that names a diffuse texture whose decode
    fails is still translated to a material object, stamped with its name,
    and a load of well-formed parser output that holds the record
    completes with a scene when the environment image decodes. The colour
    slot is not set from the flat colour: in the Emission,
    Refraction+Diffuse+Reflection and Diffuse-only branches it holds the
    power node over a sampler of the null texture; only the
    Diffuse+Reflection branch ends with the flat diffuse colour, and the
    Reflection-only branch does not write the diffuse slot. *)
Theorem missing_diffuse_texture io mat bp st e :
  m_material_cache st !! name mat = None →
  empty (diffuse_texname mat) = false →
  m_texture_cache st !! diffuse_texname mat = None →
  LoadImage io (bp +:+ diffuse_texname mat) = inl e →
  (∃ m, translated io mat bp st = Some m ∧
     material_name m = name mat ∧
     match branch_of mat with
     | Emission =>
         GetInputValue "uberv2.emission.color" m = Some (pow_sampler nullptr)
     | RefractionDiffuseReflection | DiffuseOnly =>
         GetInputValue "uberv2.diffuse.color" m = Some (pow_sampler nullptr)
     | DiffuseReflection =>
         GetInputValue "uberv2.diffuse.color" m
           = Some (InputMap_ConstantFloat3 (to_float3 (diffuse mat)))
     | ReflectionOnly => GetInputValue "uberv2.diffuse.color" m = None
     end) ∧
  ∀ objshapes objmaterials filename t,
    material_cache_ok st →
    mat ∈ objmaterials →
    input_ok (length objmaterials) objshapes = true →
    LoadImage io "../Resources/Textures/studio015.hdr" = inr t →
    ∃ scene,
      (LoadScene io (inr (objshapes, objmaterials)) filename bp st).1 = Ok scene ∧
      is_Some (m_material_cache
                 (LoadScene io (inr (objshapes, objmaterials)) filename bp st).2
               !! name mat).
Proof.
  intros Hmiss Hd Ht He. split.
  - eexists. split; [by apply translated_miss|].
    split; [done|].
    pose proof (LoadTexture_fail io bp _ st e Ht He) as LT.
    unfold GetInputValue.
    destruct (branch_of mat) eqn:Hb.
    + apply branch_of_Emission in Hb. unfold classify.
      rewrite Hb, Hd, LT. reflexivity.
    + apply branch_of_RefractionDiffuseReflection in Hb as (H1 & H2).
      unfold classify. rewrite H1, H2, Hd, LT. simpl negb. cbv iota.
      step_classify; simpl; try rewrite B; reflexivity.
    + apply branch_of_ReflectionOnly in Hb as (H1 & H2 & H3).
      unfold classify. rewrite H1, H2, H3.
      step_classify; simpl; try rewrite B; reflexivity.
    + apply branch_of_DiffuseReflection in Hb as (H1 & H2 & H3 & H4).
      unfold classify. rewrite H1, H2, H3, H4, Hd, LT. simpl negb. cbv iota.
      step_classify; simpl; try rewrite B; reflexivity.
    + apply branch_of_DiffuseOnly in Hb as (H1 & H2 & H3 & H4).
      unfold classify. rewrite H1, H2, H3, H4, Hd, LT. simpl negb. cbv iota.
      step_classify; simpl; try rewrite B; reflexivity.
  - intros objshapes objmaterials filename t Hok Hin Hinput Henv.
    destruct (LoadScene_before_environment io objshapes objmaterials filename bp st
                Hok Hinput)
      as (materials & emissives & st1 & scene & st2 & E1 & E2 & _ & Hadd & _
          & _ & _ & _ & Hc & _).
    unfold LoadScene. rewrite E1, E2, Henv. cbn [new_texture fst snd].
    eexists. split; [reflexivity|]. cbn [m_material_cache].
    destruct Hadd as (_ & -> & _).
    apply list_elem_of_lookup in Hin as [i Hi]. by eapply Hc.
Qed.

(** ** The statements at the sample inputs *)

Lemma emission_only_witness :
  ∃ m, translated io_none emitter "" empty_loader = Some m ∧
       layers m = Layers.kEmissionLayer ∧
       has_layer m Layers.kDiffuseLayer = false ∧
       has_layer m Layers.kReflectionLayer = false.
Proof.
  destruct (emission_only io_none emitter "" empty_loader)
    as (m & Hm & Hl & _ & Hd & Hr & _); [reflexivity|reflexivity|].
  exists m. repeat split; assumption.
Defined.

Lemma split_counts_distinct_indices_witness :
  ∃ b, split quad 0 = Ok b ∧ length (mesh_vertices (make_mesh b)) = 4 ∧
       mesh_indices (make_mesh b) = [0; 1; 2; 0; 2; 3]%N.
Proof.
  destruct (split_counts_distinct_indices quad 0) as (b & Hb & Hn & _ & Hi & _);
    [reflexivity|].
  exists b. split; [exact Hb|]. split; [exact Hn|exact Hi].
Defined.

Lemma single_material_index_buffer_witness :
  ∃ b, split quad 0 = Ok b ∧ length (mesh_indices (make_mesh b)) = 6 ∧
       Forall (λ i, (i < N.of_nat (length (mesh_vertices (make_mesh b))))%N)
              (mesh_indices (make_mesh b)).
Proof.
  destruct (single_material_index_buffer quad 0) as (b & Hb & Hn & Hi);
    [reflexivity|repeat constructor|].
  exists b. split; [exact Hb|]. split; [exact Hn|exact Hi].
Defined.

Lemma specular_texture_misses_reflection_slot_witness :
  ∃ m, translated io_any glass "" empty_loader = Some m ∧
       GetInputValue "uberv2.reflection.color" m = None ∧
       ∃ t, GetInputValue "uberv2.reflecton.color" m = Some (pow_sampler t).
Proof.
  apply (specular_texture_misses_reflection_slot io_any glass "" empty_loader);
    [reflexivity|left; reflexivity|reflexivity].
Defined.

(** The same record evaluated: the decoded texture sits in the misspelt
    slot and the reflection colour is unset. *)
Example glass_reflection_color :
  (translated io_any glass "" empty_loader
     ≫= GetInputValue "uberv2.reflection.color") = None ∧
  (translated io_any glass "" empty_loader
     ≫= GetInputValue "uberv2.reflecton.color") = Some (pow_sampler (Some 0)).
Proof. split; reflexivity. Qed.

Lemma material_cache_idempotent_witness :
  TranslateMaterial io_any emitter "other/"
    (TranslateMaterial io_none {| name := "lamp"; diffuse := white; specular := black;
        transmittance := black; emission := black; diffuse_texname := "";
        specular_texname := ""; bump_texname := "" |} "" empty_loader).2
  = (0, (TranslateMaterial io_none {| name := "lamp"; diffuse := white;
        specular := black; transmittance := black; emission := black;
        diffuse_texname := ""; specular_texname := ""; bump_texname := "" |}
        "" empty_loader).2).
Proof.
  exact (proj1 (material_cache_idempotent io_none
    {| name := "lamp"; diffuse := white; specular := black;
       transmittance := black; emission := black; diffuse_texname := "";
       specular_texname := ""; bump_texname := "" |}
    "" empty_loader [] io_any emitter "other/" eq_refl)).
Defined.

Lemma area_lights_per_triangle_witness :
  ∃ scene' st',
    attach_submesh [0] {[0]} {| tinyobj.mesh := quad |} 0 (Scene1_Create, empty_loader)
      = Ok (scene', st') ∧
    m_lights scene' = [AreaLight 0 0; AreaLight 0 1].
Proof.
  destruct (area_lights_per_triangle [0] {[0]} {| tinyobj.mesh := quad |} 0
              Scene1_Create empty_loader)
    as (scene' & st' & mesh & K & Hr & _ & _ & Hm & Hk & Hl);
    [reflexivity|simpl; lia|].
  exists scene', st'. split; [exact Hr|].
  vm_compute in Hr. injection Hr as <- <-. reflexivity.
Defined.

Lemma uv_zero_fill_witness :
  ∃ b, split quad 0 = Ok b ∧
       mesh_uvs (make_mesh b)
       = replicate (length (mesh_vertices (make_mesh b)))
                   (mk_float2 Float.zero Float.zero) ∧
       mesh_uvs (make_mesh b) ≠ [].
Proof.
  destruct (uv_zero_fill quad 0) as (b & Hb & Hu & _ & Hne); [reflexivity..|].
  exists b. split; [exact Hb|]. split; [exact Hu|].
  apply Hne. left.
Defined.

Lemma diffuse_reflection_flat_colors_witness :
  ∃ m, translated io_any plastic "" empty_loader = Some m ∧
       GetInputValue "uberv2.diffuse.color" m
         = Some (InputMap_ConstantFloat3 (to_float3 white)) ∧
       GetInputValue "uberv2.reflection.color" m
         = Some (InputMap_ConstantFloat3 (to_float3 white)).
Proof.
  destruct (diffuse_reflection_flat_colors io_any plastic "" empty_loader)
    as (m & Hm & Hd & Hs & _); [reflexivity..|].
  exists m. split; [exact Hm|]. split; [exact Hd|exact Hs].
Defined.

Lemma texture_cache_memoizes_successes_witness :
  (LoadTexture io_none "" "wood.png" empty_loader).1 = nullptr ∧
  m_texture_cache (LoadTexture io_none "" "wood.png" empty_loader).2 !! "wood.png"
    = None.
Proof.
  destruct (texture_cache_memoizes_successes io_none "" "wood.png" empty_loader)
    as [Hfail _]; [reflexivity|].
  destruct (Hfail (runtime_error "Failed to load image") eq_refl)
    as (Hp & _ & Hc & _).
  split; [exact Hp|exact Hc].
Defined.

(** The four vertices of [quad] share one position and stay four. *)
Example quad_vertices_stay_distinct :
  tinyobj.positions quad = replicate 12 (f32 0) ∧
  (let* b := split quad 0 in Ok (length (mesh_vertices (make_mesh b)))) = Ok 4.
Proof. split; reflexivity. Qed.

(** A load of one shape of two triangles with one diffuse-only material:
    one mesh, no area light, the two default lights. *)
Example load_quad :
  ∃ directional environment,
    (LoadScene io_any (inr ([{| tinyobj.mesh := quad |}], [matte])) "quad.obj" ""
               empty_loader).1
    = Ok {| m_shapes := [0]; m_lights := [directional; environment] |}.
Proof. eexists _, _. vm_compute. reflexivity. Qed.

(** The same load with the emitter: one area light per triangle. *)
Example load_emissive_quad :
  ∃ directional environment,
    (LoadScene io_any (inr ([{| tinyobj.mesh := quad |}], [emitter])) "quad.obj" ""
               empty_loader).1
    = Ok {| m_shapes := [0];
            m_lights := [AreaLight 0 0; AreaLight 0 1; directional; environment] |}.
Proof. eexists _, _. vm_compute. reflexivity. Qed.

(** C1, as stated, fails when the name of the record is already cached:
    the emissive record [emitter] requested after a diffuse-only record of
    the same name gets that record's material, with the diffuse layer and
    without the emission layer. *)
Lemma cached_name_hides_emission :
  sqnorm_pos (to_float3 (emission emitter)) = true ∧
  name emitter = name lamp_matte ∧
  ∃ m,
    translated io_none emitter ""
      (TranslateMaterial io_none lamp_matte "" empty_loader).2 = Some m ∧
    layers m = Layers.kDiffuseLayer ∧
    has_layer m Layers.kEmissionLayer = false ∧
    has_layer m Layers.kDiffuseLayer = true.
Proof.
  split; [reflexivity|]. split; [reflexivity|].
  eexists. split; [vm_compute; reflexivity|].
  split; [reflexivity|]. split; reflexivity.
Qed.

Lemma missing_diffuse_texture_witness :
  (∃ m, translated io_env_only textured_matte "" empty_loader = Some m ∧
        material_name m = "matte" ∧
        GetInputValue "uberv2.diffuse.color" m = Some (pow_sampler nullptr)) ∧
  ∃ scene,
    (LoadScene io_env_only (inr ([{| tinyobj.mesh := quad |}], [textured_matte]))
               "quad.obj" "" empty_loader).1 = Ok scene.
Proof.
  destruct (missing_diffuse_texture io_env_only textured_matte "" empty_loader
              (runtime_error "Failed to load image") eq_refl eq_refl eq_refl eq_refl)
    as [(m & Hm & Hn & Hs) Hload].
  split.
  - assert (branch_of textured_matte = DiffuseOnly) as Hb by reflexivity.
    rewrite Hb in Hs. exists m. split; [exact Hm|]. split; [exact Hn|exact Hs].
  - destruct (Hload [{| tinyobj.mesh := quad |}] [textured_matte] "quad.obj"
                {| texture_name := ""; texture_data := [255%Z] |})
      as (scene & E & _).
    + apply empty_loader_ok.
    + left.
    + reflexivity.
    + reflexivity.
    + exists scene. exact E.
Defined.

(** C4, as stated, fails: the load completes, but the diffuse slot of a
    diffuse-only record whose texture is missing holds the sampler of the
    null texture, not the flat colour that the same record without a
    texture name gets. *)
Lemma missing_texture_is_not_flat_color :
  empty (diffuse_texname textured_matte) = false ∧
  LoadImage io_env_only ("" +:+ diffuse_texname textured_matte)
    = inl (runtime_error "Failed to load image") ∧
  diffuse textured_matte = diffuse matte ∧
  (∃ scene,
     (LoadScene io_env_only (inr ([{| tinyobj.mesh := quad |}], [textured_matte]))
                "quad.obj" "" empty_loader).1 = Ok scene) ∧
  ∃ m m0,
    translated io_env_only textured_matte "" empty_loader = Some m ∧
    translated io_env_only matte "" empty_loader = Some m0 ∧
    GetInputValue "uberv2.diffuse.color" m0
      = Some (InputMap_ConstantFloat3 (to_float3 (diffuse matte))) ∧
    GetInputValue "uberv2.diffuse.color" m = Some (pow_sampler nullptr) ∧
    GetInputValue "uberv2.diffuse.color" m
      ≠ Some (InputMap_ConstantFloat3 (to_float3 (diffuse textured_matte))).
Proof.
  split; [reflexivity|]. split; [reflexivity|]. split; [reflexivity|].
  split; [eexists; vm_compute; reflexivity|].
  eexists _, _. split; [vm_compute; reflexivity|].
  split; [vm_compute; reflexivity|].
  split; [vm_compute; reflexivity|]. split; [vm_compute; reflexivity|].
  vm_compute. discriminate.
Qed.

(** The load of the emissive record after a diffuse-only record of the
    same name: no area light. *)
Example load_shadowed_emitter :
  ∃ directional environment,
    (LoadScene io_any
       (inr ([{| tinyobj.mesh :=
                   {| tinyobj.positions := tinyobj.positions quad;
                      tinyobj.normals := tinyobj.normals quad;
                      tinyobj.texcoords := [];
                      tinyobj.indices := tinyobj.indices quad;
                      tinyobj.num_vertices := [3; 3]%N;
                      tinyobj.material_ids := [1; 1]%Z |} |}],
             [lamp_matte; emitter])) "quad.obj" "" empty_loader).1
    = Ok {| m_shapes := [0]; m_lights := [directional; environment] |}.
Proof. eexists _, _. vm_compute. reflexivity. Qed.

(** ** The further statements at the sample inputs *)

Lemma references_stay_valid_witness :
  mesh_store (translate_all [(io_any, plastic, ""); (io_none, glass, "")] empty_loader)
  = [].
Proof.
  exact (proj2 (proj2 (proj2 (proj2
    (references_stay_valid [(io_any, plastic, ""); (io_none, glass, "")]
       empty_loader))))).
Defined.

Lemma loaded_texture_is_named_witness :
  ∃ t, texture_store (LoadTexture io_any "" "wood.png" empty_loader).2 !! 0 = Some t ∧
       texture_name t = "wood.png".
Proof.
  destruct (loaded_texture_is_named io_any "" "wood.png" empty_loader) as [_ H];
    [apply empty_loader_ok|].
  apply H. reflexivity.
Defined.

Lemma translated_material_is_named_witness :
  ∃ m, translated io_any plastic "" empty_loader = Some m ∧
       material_name m = "plastic".
Proof.
  destruct (translated_material_is_named io_any plastic "" empty_loader)
    as (_ & _ & H); [apply empty_loader_ok..|].
  exact H.
Defined.



Lemma reflection_defaults_witness :
  ∃ m, translated io_any glass "" empty_loader = Some m ∧
    GetInputValue "uberv2.reflection.ior" m
      = Some (InputMap_ConstantFloat (Float.lit 3 1)) ∧
    GetInputValue "uberv2.reflection.roughness" m
      = Some (InputMap_ConstantFloat (Float.lit 1 100)) ∧
    GetInputValue "uberv2.reflection.metalness" m
      = Some (InputMap_ConstantFloat (Float.lit 1 1)) ∧
    GetInputValue "uberv2.refraction.ior" m
      = Some (InputMap_ConstantFloat (Float.lit 3 1)) ∧
    GetInputValue "uberv2.refraction.roughness" m
      = Some (InputMap_ConstantFloat (Float.lit 1 100)).
Proof.
  apply (reflection_defaults io_any glass "" empty_loader). reflexivity.
Defined.


Lemma albedo_source_witness :
  ∃ m, translated io_any plastic "" empty_loader = Some m ∧
       GetInputValue "uberv2.diffuse.color" m
         = Some (InputMap_ConstantFloat3 (to_float3 white)) ∧
       GetInputValue "uberv2.emission.color" m = None.
Proof.
  apply (albedo_source io_any plastic "" empty_loader). reflexivity.
Defined.

Lemma emission_requests_diffuse_texture_only_witness :
  texture_store (TranslateMaterial io_any
    {| name := "lamp"; diffuse := white; specular := white; transmittance := black;
       emission := red; diffuse_texname := ""; specular_texname := "gloss.png";
       bump_texname := "bump.png" |} "" empty_loader).2 = [].
Proof.
  destruct (emission_requests_diffuse_texture_only io_any
    {| name := "lamp"; diffuse := white; specular := white; transmittance := black;
       emission := red; diffuse_texname := ""; specular_texname := "gloss.png";
       bump_texname := "bump.png" |} "" empty_loader) as (_ & H & _);
    [reflexivity..|].
  exact H.
Defined.

Lemma untextured_record_requests_nothing_witness :
  log (TranslateMaterial io_none matte "" empty_loader).2 = [].
Proof.
  destruct (untextured_record_requests_nothing io_none matte "" empty_loader)
    as (_ & _ & H); [reflexivity..|].
  exact H.
Defined.

Lemma split_preserves_attributes_witness :
  ∃ b, split square 0 = Ok b ∧
       mesh_vertices (make_mesh b) !! 2 = Some (mk_float3 (f32 1) (f32 1) (f32 0)) ∧
       mesh_uvs (make_mesh b) !! 2 = Some (mk_float2 (f32 1) (f32 1)).
Proof.
  destruct (split_preserves_attributes square 0) as (b & Hb & H); [reflexivity|].
  exists b. split; [exact Hb|].
  destruct (H 2 2%N eq_refl) as (new & v & n & Hi & Hv & _ & Hmv & _ & Huv).
  destruct Huv as (uv & Hu & Hmu); [discriminate|].
  injection Hv as <-. injection Hu as <-.
  assert (new = 2%N) as ->.
  { vm_compute in Hb. injection Hb as <-. by injection Hi as <-. }
  split; [exact Hmv|exact Hmu].
Defined.

Lemma attribute_buffers_agree_witness :
  ∃ b, split square (-1) = Ok b ∧
       length (mesh_uvs (make_mesh b)) = length (mesh_vertices (make_mesh b)).
Proof.
  destruct (attribute_buffers_agree square (-1)) as (b & Hb & _ & H); [reflexivity|].
  exists b. split; [exact Hb|exact H].
Defined.

Lemma split_unused_material_witness : split square 7 = Ok no_buffers.
Proof.
  apply (split_unused_material square 7).
  intros H. repeat (apply elem_of_cons in H as [H|H]; [discriminate|]).
  by apply elem_of_nil in H.
Defined.



Lemma submeshes_cover_faces_witness :
  sum_list
    (map (λ id, match split square id with Ok b => length (indices b) | _ => 0 end)
         (std_set (tinyobj.material_ids square))) = 6.
Proof.
  apply (submeshes_cover_faces square).
  intros id H. repeat (apply elem_of_cons in H as [->|H]; [reflexivity|]).
  by apply elem_of_nil in H.
Defined.

Lemma material_array_in_order_witness :
  ∃ materials emissives,
    (translate_materials io_none [matte; emitter; textured_matte] "" [] ∅
       empty_loader).1 = Ok (materials, emissives) ∧
    length materials = 3.
Proof.
  destruct (material_array_in_order io_none [matte; emitter; textured_matte] ""
              empty_loader) as (materials & emissives & E & Hlen & _);
    [apply empty_loader_ok|].
  exists materials, emissives. split; [exact E|exact Hlen].
Defined.

Lemma loaded_scene_is_consistent_witness :
  ∃ scene,
    (LoadScene io_any (inr ([{| tinyobj.mesh := square |}], [emitter])) "square.obj" ""
               empty_loader).1 = Ok scene ∧
    m_shapes scene = [0; 1].
Proof.
  destruct (loaded_scene_is_consistent io_any [{| tinyobj.mesh := square |}] [emitter]
              "square.obj" "" empty_loader
              {| texture_name := ""; texture_data := [255%Z] |})
    as (scene & area & env & E & _ & Hsh & _);
    [apply empty_loader_ok|reflexivity|reflexivity|].
  exists scene. split; [exact E|exact Hsh].
Defined.

